(** * wordlist_gen.py: the generation and transformation engine

    A shallow embedding of the [WordlistGenerator] class of
    [src/wordlist_gen.py] and the properties of its methods.

    Conventions of the embedding.
    - A Python [str] is a [string]; its characters are 8-bit [ascii]
      values, and the case methods ([lower], [upper], [capitalize]) and
      [isdigit] act on the ASCII letters and digits only.  Text outside
      ASCII is covered for [apply_leetspeak] alone, where it matters: see
      [apply_leetspeak_u], which takes [str.lower] as a parameter.
    - A Python [int] is a [Z]; an optional argument is an [option].
    - [self.wordlist] is a [gset string]; a method takes the store and
      returns the new store together with what the method reports.
    - [itertools.product] and [itertools.combinations] are list functions
      that produce the tuples in the order in which Python yields them.
    - A text file is the list of its lines as the read loop sees them, a
      written file the list of the strings written; the order in which
      [list(self.wordlist)] lists the set is a parameter [listing], of
      which only that it lists the set is assumed. *)

From Stdlib Require Import ZArith Lia Ascii String.
From stdpp Require Import base decidable option list sorting sets gmap strings.

Local Open Scope Z_scope.

(** ** Python string methods *)

Module PyStr.

(** [list(s)] and [''.join(l)]. *)
Definition chars (s : string) : list ascii := list_ascii_of_string s.
Definition join (l : list ascii) : string := string_of_list_ascii l.

(** [len(s)]. *)
Definition len (s : string) : Z := Z.of_nat (String.length s).

(** Truth value of a string and of an optional string argument. *)
Definition nonempty (s : string) : bool :=
  match s with EmptyString => false | String _ _ => true end.
Definition truthy (o : option string) : bool :=
  match o with Some s => nonempty s | None => false end.

Definition is_upper (c : ascii) : bool :=
  (65 <=? nat_of_ascii c)%nat && (nat_of_ascii c <=? 90)%nat.
Definition is_lower (c : ascii) : bool :=
  (97 <=? nat_of_ascii c)%nat && (nat_of_ascii c <=? 122)%nat.
Definition isdigit (c : ascii) : bool :=
  (48 <=? nat_of_ascii c)%nat && (nat_of_ascii c <=? 57)%nat.

Definition lower_char (c : ascii) : ascii :=
  if is_upper c then ascii_of_nat (nat_of_ascii c + 32) else c.
Definition upper_char (c : ascii) : ascii :=
  if is_lower c then ascii_of_nat (nat_of_ascii c - 32) else c.

(** [s.lower()], [s.upper()]. *)
Fixpoint lower (s : string) : string :=
  match s with
  | EmptyString => EmptyString
  | String c r => String (lower_char c) (lower r)
  end.
Fixpoint upper (s : string) : string :=
  match s with
  | EmptyString => EmptyString
  | String c r => String (upper_char c) (upper r)
  end.

(** [s.capitalize()]: first character upper-cased, the rest lower-cased. *)
Definition capitalize (s : string) : string :=
  match s with
  | EmptyString => EmptyString
  | String c r => String (upper_char c) (lower r)
  end.

(** [s.replace(c, '')] for a one-character [c]. *)
Fixpoint remove_char (c : ascii) (s : string) : string :=
  match s with
  | EmptyString => EmptyString
  | String d r =>
      if Ascii.eqb d c then remove_char c r else String d (remove_char c r)
  end.

(** [''.join(filter(p, s))]. *)
Fixpoint filter_chars (p : ascii -> bool) (s : string) : string :=
  match s with
  | EmptyString => EmptyString
  | String d r =>
      if p d then String d (filter_chars p r) else filter_chars p r
  end.

(** The slice [s[a:b]] for [0 <= a <= b]; never fails on a short string. *)
Definition slice (a b : nat) (s : string) : string :=
  join (take (b - a) (drop a (chars s))).

(** The slice [s[a:]] for [0 <= a]. *)
Definition slice_from (a : nat) (s : string) : string :=
  join (drop a (chars s)).

(** The slice [s[-k:]] for [k > 0]: the last [k] characters, the whole
    string when it is shorter. *)
Definition last_chars (k : nat) (s : string) : string :=
  join (drop (String.length s - k) (chars s)).

End PyStr.

(** ** [string] constants of the Python library *)

Module PyString.

Definition ascii_lowercase : string := "abcdefghijklmnopqrstuvwxyz".
Definition ascii_uppercase : string := "ABCDEFGHIJKLMNOPQRSTUVWXYZ".
Definition ascii_letters : string := ascii_lowercase +:+ ascii_uppercase.
Definition digits : string := "0123456789".
(** [string.punctuation]; its second character is the double quote. *)
Definition punctuation : string :=
  String "!" (String (ascii_of_nat 34) "#$%&'()*+,-./:;<=>?@[\]^_`{|}~").

End PyString.

(** ** [itertools] *)

Module Itertools.

(** [itertools.product] over a list of pools: the last pool varies
    fastest. *)
Fixpoint product {A} (pools : list (list A)) : list (list A) :=
  match pools with
  | [] => [[]]
  | p :: ps => c ← p; (cons c <$> product ps)
  end.

(** [itertools.product(pool, repeat=n)]; a negative [n] raises
    [ValueError], here [None]. *)
Definition product_repeat {A} (pool : list A) (n : Z) : option (list (list A)) :=
  if n <? 0 then None else Some (product (replicate (Z.to_nat n) pool)).

(** [itertools.combinations(l, r)], in lexicographic order of positions. *)
Fixpoint combinations {A} (l : list A) (r : nat) : list (list A) :=
  match r, l with
  | O, _ => [[]]
  | S _, [] => []
  | S r', x :: tl => (cons x <$> combinations tl r') ++ combinations tl r
  end.

(** [range(a, b)]. *)
Definition range (a b : Z) : list Z :=
  (fun k => a + Z.of_nat k) <$> seq 0 (Z.to_nat (b - a)).

End Itertools.

Import PyStr.

(** ** The generator *)

(** [self.wordlist]. *)
Abbreviation store := (gset string).

(** [self.charset_map], looked up with a two-character key. *)
Definition charset_map (key : string) : option string :=
  if decide (key = "?l") then Some PyString.ascii_lowercase
  else if decide (key = "?u") then Some PyString.ascii_uppercase
  else if decide (key = "?d") then Some PyString.digits
  else if decide (key = "?s") then Some PyString.punctuation
  else if decide (key = "?a") then
    Some (PyString.ascii_letters +:+ PyString.digits +:+ PyString.punctuation)
  else None.

(** [self.leetspeak_map]. *)
Definition leetspeak_map (c : ascii) : option (list ascii) :=
  if decide (c = "a"%char) then Some ["4"; "@"]%char
  else if decide (c = "e"%char) then Some ["3"]%char
  else if decide (c = "i"%char) then Some ["1"; "!"]%char
  else if decide (c = "o"%char) then Some ["0"]%char
  else if decide (c = "s"%char) then Some ["5"; "$"]%char
  else if decide (c = "t"%char) then Some ["7"]%char
  else if decide (c = "l"%char) then Some ["1"]%char
  else if decide (c = "g"%char) then Some ["9"]%char
  else None.

(** *** [generate_from_pattern]: parsing *)

(** An entry of [char_sets]: the string of a known token, or the
    one-element list [[pattern[i]]]. *)
Inductive slot : Type :=
  | Expandable (cs : string)
  | Literal (c : ascii).

Definition slot_chars (sl : slot) : list ascii :=
  match sl with
  | Expandable cs => chars cs
  | Literal c => [c]
  end.

(** The [while i < len(pattern)] loop with its index [i] and the list
    [char_sets] built so far; [fuel] bounds the number of passes, and
    [None] means that it ran out.  The key [pattern[i:i+2]] is the slice
    [take 2 (drop i pattern)]. *)
Fixpoint parse_while (fuel : nat) (pattern : list ascii) (i : nat)
    (char_sets : list slot) : option (list slot) :=
  match fuel with
  | O => None
  | S fuel' =>
      match pattern !! i with
      | None => Some char_sets
      | Some c =>
          let literal :=
            parse_while fuel' pattern (i + 1) (char_sets ++ [Literal c]) in
          if decide (c = "?"%char) then
            if decide (i + 1 < length pattern)%nat then
              match charset_map (join (take 2 (drop i pattern))) with
              | Some cs =>
                  parse_while fuel' pattern (i + 2)
                              (char_sets ++ [Expandable cs])
              | None => literal
              end
            else literal
          else literal
      end
  end.

(** The same loop by recursion on the rest [pattern[i:]] of the pattern: a
    known token moves [i] by two, anything else by one.  The loop above
    computes this function ([parse_while_spec]). *)
Fixpoint parse_pattern (rest : list ascii) : list slot :=
  match rest with
  | [] => []
  | c :: tl =>
      if decide (c = "?"%char) then
        match tl with
        | d :: tl' =>
            match charset_map (join [c; d]) with
            | Some cs => Expandable cs :: parse_pattern tl'
            | None => Literal c :: parse_pattern tl
            end
        | [] => Literal c :: parse_pattern tl
        end
      else Literal c :: parse_pattern tl
  end.

(** *** The enumeration loops of the two generators *)

(** The variables of an enumeration loop: the store, the counter
    [generated], and (for the statements about order) the words handed to
    [self.wordlist.add], oldest first. *)
Record gen_state : Type := GenState {
  gs_wordlist : store;
  gs_generated : Z;
  gs_produced : list string
}.

(** [count and generated >= count]. *)
Definition cap_reached (count : option Z) (generated : Z) : bool :=
  match count with
  | Some n => negb (n =? 0) && (n <=? generated)
  | None => false
  end.

(** [word = ''.join(combo); self.wordlist.add(word); generated += 1]. *)
Definition gen_add (combo : list ascii) (s : gen_state) : gen_state :=
  let word := join combo in
  GenState ({[word]} ∪ gs_wordlist s) (gs_generated s + 1)
           (gs_produced s ++ [word]).

(** [for combo in combos: ...]; the flag tells whether the loop was left
    by [break] / [return]. *)
Fixpoint gen_loop (count : option Z) (combos : list (list ascii))
    (s : gen_state) : gen_state * bool :=
  match combos with
  | [] => (s, false)
  | combo :: more =>
      let s' := gen_add combo s in
      if cap_reached count (gs_generated s') then (s', true)
      else gen_loop count more s'
  end.

Definition gen_start (st : store) : gen_state := GenState st 0 [].

Definition generate_from_pattern (pattern : string) (count : option Z)
    (st : store) : gen_state :=
  let char_sets := parse_pattern (chars pattern) in
  match char_sets with
  | [] => gen_start st
  | _ => (gen_loop count (Itertools.product (slot_chars <$> char_sets))
                   (gen_start st)).1
  end.

(** *** [generate_from_charset] *)

Inductive outcome : Type :=
  | Returned
  | ValueError.

(** [for length in lengths: for combo in product(charset, repeat=length)]. *)
Fixpoint charset_loop (count : option Z) (charset : list ascii)
    (lengths : list Z) (s : gen_state) : gen_state * outcome :=
  match lengths with
  | [] => (s, Returned)
  | length :: more =>
      match Itertools.product_repeat charset length with
      | None => (s, ValueError)
      | Some combos =>
          let r := gen_loop count combos s in
          if r.2 then (r.1, Returned)
          else charset_loop count charset more r.1
      end
  end.

Definition generate_from_charset (charset : string) (min_len max_len : Z)
    (count : option Z) (st : store) : gen_state * outcome :=
  charset_loop count (chars charset)
    (Itertools.range min_len (max_len + 1)) (gen_start st).

(** *** [add_personal_info_combinations] *)

Definition when_given (field : option string) (f : string -> list string)
    : list string :=
  match field with
  | Some s => if nonempty s then f s else []
  | None => []
  end.

Definition base_words_of (name father_name mother_name place : option string)
    : list string :=
  when_given name (fun n => [n; lower n; upper n; capitalize n])
  ++ when_given father_name (fun n => [n; lower n; capitalize n])
  ++ when_given mother_name (fun n => [n; lower n; capitalize n])
  ++ when_given place (fun n => [n; lower n; upper n; capitalize n]).

Definition dob_variants_of (dob : option string) : list string :=
  when_given dob (fun dob =>
    let dob_clean := remove_char "-" (remove_char "/" dob) in
    if 8 <=? len dob_clean then
      let day := slice 0 2 dob_clean in
      let month := slice 2 4 dob_clean in
      let year := slice 4 8 dob_clean in
      let year_short := slice_from 2 year in
      [dob_clean; day +:+ month +:+ year; day +:+ month +:+ year_short;
       year; year_short; day +:+ month; month +:+ year]
    else []).

Definition phone_variants_of (phone : option string) : list string :=
  when_given phone (fun phone =>
    let phone_clean := filter_chars isdigit phone in
    [phone_clean; last_chars 4 phone_clean; last_chars 6 phone_clean;
     last_chars 8 phone_clean]).

Definition common_suffixes : list string :=
  ["123"; "1234"; "12345"; "!"; "@"; "#"; "123!"; "2023"; "2024"; "2025"].
Definition common_prefixes : list string := ["@"; "#"; "my"].

(** A run of [self.wordlist.add(w)] calls. *)
Definition add_all (ws : list string) (st : store) : store :=
  foldl (fun acc w => {[w]} ∪ acc) st ws.

(** The body of [for word in base_words]. *)
Definition add_word_combinations (dob_variants phone_variants : list string)
    (st : store) (word : string) : store :=
  if negb (nonempty word) then st
  else
    let st := {[word]} ∪ st in
    let st := add_all ((fun suffix => word +:+ suffix) <$> common_suffixes) st in
    let st := add_all ((fun prefix => prefix +:+ word) <$> common_prefixes) st in
    let st := add_all (dob_var ← dob_variants;
                       [word +:+ dob_var; dob_var +:+ word]) st in
    add_all (phone_var ← phone_variants;
             [word +:+ phone_var; phone_var +:+ word]) st.

(** [''.join(combo)] for a tuple of strings. *)
Definition concat_strings (combo : list string) : string :=
  foldr String.append "" combo.

(** Returns the store and the reported [new_words]. *)
Definition add_personal_info_combinations
    (name phone dob father_name mother_name place : option string)
    (st : store) : store * Z :=
  let base_words := base_words_of name father_name mother_name place in
  let dob_variants := dob_variants_of dob in
  let phone_variants := phone_variants_of phone in
  let initial_count := Z.of_nat (size st) in
  let st1 := foldl (add_word_combinations dob_variants phone_variants)
                   st base_words in
  let st2 :=
    if (2 <=? length base_words)%nat then
      add_all (concat_strings <$> Itertools.combinations (take 4 base_words) 2)
              st1
    else st1 in
  (st2, Z.of_nat (size st2) - initial_count).

(** *** [apply_leetspeak] *)

(** [[(i, char) for i, char in enumerate(word_lower)
      if char in self.leetspeak_map]]. *)
Definition leet_positions_of (word_lower : string) : list (nat * ascii) :=
  filter (fun p => is_Some (leetspeak_map p.2)) (imap pair (chars word_lower)).

(** [self.leetspeak_map[char]]; every [char] looked up is a key. *)
Definition replacements (char : ascii) : list ascii :=
  default [] (leetspeak_map char).

(** The strings added to [new_words] for one [word] of ASCII text, in
    order.  The assignment [temp_word[pos] = replacement] is the list
    update [<[pos:=replacement]>]: [pos] is an index of [word_lower], which
    for ASCII text is as long as [word].  For other text the lower-case
    form can be longer and the assignment can raise: see [leet_variants_u],
    which agrees with this definition on ASCII text
    ([apply_leetspeak_agrees]). *)
Definition leet_variants (word : string) : list string :=
  let word_lower := lower word in
  let leet_positions := leet_positions_of word_lower in
  if bool_decide (leet_positions <> []) && (length leet_positions <=? 4)%nat
  then
    r ← seq 1 (Nat.min (length leet_positions + 1) 3 - 1);
    combo ← Itertools.combinations leet_positions r;
    let new_word := chars word in
    p ← combo;
    replacement ← replacements p.2;
    let temp_word := <[p.1 := replacement]> new_word in
    [join temp_word]
  else [].

(** The set [new_words] built by the loop over [list(self.wordlist)]. *)
Definition leet_new_words (st : store) : store :=
  list_to_set (word ← elements st; leet_variants word).

(** Returns the store and the reported [len(new_words)]. *)
Definition apply_leetspeak (st : store) : store * Z :=
  let new_words := leet_new_words st in
  (st ∪ new_words, Z.of_nat (size new_words)).

(** *** [apply_prefix_suffix] *)

Definition modified_word (prefix suffix : option string) (word : string)
    : string :=
  let modified := word in
  let modified :=
    match prefix with
    | Some p => if nonempty p then p +:+ modified else modified
    | None => modified
    end in
  match suffix with
  | Some s => if nonempty s then modified +:+ s else modified
  | None => modified
  end.

(** Returns the store and the reported [len(new_words)], if any. *)
Definition apply_prefix_suffix (prefix suffix : option string) (st : store)
    : store * option Z :=
  if negb (truthy prefix) && negb (truthy suffix) then (st, None)
  else
    let new_words : store := set_map (modified_word prefix suffix) st in
    (st ∪ new_words, Some (Z.of_nat (size new_words))).

(** *** [filter_by_length] *)

(** Returns the store and the reported [removed]. *)
Definition filter_by_length (min_len max_len : Z) (st : store) : store * Z :=
  let initial_count := Z.of_nat (size st) in
  let st' : store := filter (fun w => min_len <= len w <= max_len) st in
  (st', initial_count - Z.of_nat (size st')).


(** *** [limit_wordcount] *)

(** The slice [l[:n]]: the first [n] elements, and for a negative [n] all
    but the last [-n]. *)
Definition slice_to {A} (n : Z) (l : list A) : list A :=
  if 0 <=? n then take (Z.to_nat n) l
  else take (length l - Z.to_nat (- n)) l.

(** [list(self.wordlist)] lists the set in an order that the language
    does not fix; [listing] is that order. *)
Definition limit_wordcount (listing : store -> list string) (max_words : Z)
    (st : store) : store :=
  if Z.of_nat (size st) >? max_words
  then list_to_set (slice_to max_words (listing st))
  else st.

(** *** [add_from_file] *)

(** [c.isspace()] for an ASCII character: tab to carriage return, the
    four separators 28 to 31, and the space. *)
Definition isspace (c : ascii) : bool :=
  ((9 <=? nat_of_ascii c)%nat && (nat_of_ascii c <=? 13)%nat)
  || ((28 <=? nat_of_ascii c)%nat && (nat_of_ascii c <=? 32)%nat).

Fixpoint lstrip_chars (l : list ascii) : list ascii :=
  match l with
  | [] => []
  | c :: r => if isspace c then lstrip_chars r else l
  end.

(** [s.strip()]. *)
Definition strip (s : string) : string :=
  join (reverse (lstrip_chars (reverse (lstrip_chars (chars s))))).

(** The body of [for line in f]. *)
Definition add_line (st : store) (line : string) : store :=
  let word := strip line in
  if nonempty word then {[word]} ∪ st else st.

(** The file is given by its lines, [None] when it cannot be opened
    ([FileNotFoundError], reported and swallowed).  Returns the store and
    the reported [new_words], if any. *)
Definition add_from_file (file : option (list string)) (st : store)
    : store * option Z :=
  match file with
  | None => (st, None)
  | Some lines =>
      let initial_count := Z.of_nat (size st) in
      let st' := foldl add_line st lines in
      (st', Some (Z.of_nat (size st') - initial_count))
  end.

(** *** [save_to_file] *)

Definition newline : string := String (ascii_of_nat 10) EmptyString.

(** [sorted(self.wordlist)]: strings compare character by character on
    their codes. *)
Definition sorted_words (st : store) : list string :=
  merge_sort String.le (elements st).

(** The strings handed to [f.write], in order. *)
Definition save_to_file (st : store) : list string :=
  (fun word => word +:+ newline) <$> sorted_words st.

(** *** [main] *)

(** Truth value of an optional integer ([None] and [0] are false). *)
Definition truthy_count (o : option Z) : bool :=
  match o with Some n => negb (n =? 0) | None => false end.

(** [if cond: self.wordlist = f(self.wordlist)]. *)
Definition when (cond : bool) (f : store -> store) (st : store) : store :=
  if cond then f st else st.

(** How a run ends: the word list is saved, or no word is left
    ([sys.exit(1)]), or [generate_from_charset] raised. *)
Inductive run_result : Type :=
  | Saved (st : store) (written : list string)
  | NoWords
  | Raised.

(** [if generator.wordlist: ... save_to_file ... else: sys.exit(1)]. *)
Definition finish (st : store) : run_result :=
  if bool_decide (st <> ∅) then Saved st (save_to_file st) else NoWords.

(** The filtering and limiting steps shared by both modes. *)
Definition post_process (listing : store -> list string)
    (min_len max_len : Z) (max_words : option Z) (st : store) : store :=
  let st := when (bool_decide (st <> ∅))
                 (fun st => (filter_by_length min_len max_len st).1) st in
  when (truthy_count max_words)
       (fun st => limit_wordcount listing (default 0 max_words) st) st.

(** The parsed command line. *)
Record cli_args : Type := CliArgs {
  arg_pattern : option string;
  arg_charset : option string;
  arg_name : option string;
  arg_phone : option string;
  arg_dob : option string;
  arg_father_name : option string;
  arg_mother_name : option string;
  arg_place : option string;
  arg_min_len : Z;
  arg_max_len : Z;
  arg_max_words : option Z;
  arg_prefix : option string;
  arg_suffix : option string;
  arg_leetspeak : bool;
  arg_file : option string
}.

(** The store after the generation steps of the command-line mode, and
    whether [generate_from_charset] raised; [fs] gives the lines of the
    file at a path. *)
Definition cli_generate (fs : string -> option (list string))
    (args : cli_args) : store * outcome :=
  let st : store := ∅ in
  let st :=
    when (existsb truthy [arg_name args; arg_phone args; arg_dob args;
                          arg_father_name args; arg_mother_name args;
                          arg_place args])
         (fun st => (add_personal_info_combinations
                       (arg_name args) (arg_phone args) (arg_dob args)
                       (arg_father_name args) (arg_mother_name args)
                       (arg_place args) st).1) st in
  let st :=
    when (truthy (arg_pattern args))
         (fun st => gs_wordlist (generate_from_pattern
                                   (default "" (arg_pattern args))
                                   (arg_max_words args) st)) st in
  let r :=
    if truthy (arg_charset args) then
      let r := generate_from_charset (default "" (arg_charset args))
                 (arg_min_len args) (arg_max_len args)
                 (arg_max_words args) st in
      (gs_wordlist r.1, r.2)
    else (st, Returned) in
  match r.2 with
  | ValueError => r
  | Returned =>
      let st := r.1 in
      let st :=
        when (truthy (arg_file args))
             (fun st => (add_from_file (fs (default "" (arg_file args))) st).1)
             st in
      let st := when (arg_leetspeak args) (fun st => (apply_leetspeak st).1) st in
      let st :=
        when (truthy (arg_prefix args) || truthy (arg_suffix args))
             (fun st => (apply_prefix_suffix (arg_prefix args)
                                             (arg_suffix args) st).1) st in
      (st, Returned)
  end.

(** The command-line branch of [main]. *)
Definition main_cli (listing : store -> list string)
    (fs : string -> option (list string)) (args : cli_args) : run_result :=
  let r := cli_generate fs args in
  match r.2 with
  | ValueError => Raised
  | Returned =>
      finish (post_process listing (arg_min_len args) (arg_max_len args)
                           (arg_max_words args) r.1)
  end.

(** The loop [for char in inputs['special_chars']:
    generator.apply_prefix_suffix(suffix=char)] of the interactive branch. *)
Definition apply_special_chars (special_chars : string) (st : store) : store :=
  foldl (fun st char =>
           (apply_prefix_suffix None (Some (String char EmptyString)) st).1)
        st (chars special_chars).

(** The answers collected by [get_user_input]. *)
Record user_inputs : Type := UserInputs {
  in_name : option string;
  in_phone : option string;
  in_dob : option string;
  in_father_name : option string;
  in_mother_name : option string;
  in_place : option string;
  in_add_special : bool;
  in_special_chars : option string;
  in_pattern : option string;
  in_leetspeak : bool;
  in_min_len : Z;
  in_max_len : Z;
  in_max_words : option Z
}.

(** The interactive branch of [main], after [get_user_input]. *)
Definition main_interactive (listing : store -> list string)
    (inputs : user_inputs) : run_result :=
  let st : store := ∅ in
  let st :=
    when (existsb truthy [in_name inputs; in_phone inputs; in_dob inputs;
                          in_father_name inputs; in_mother_name inputs;
                          in_place inputs])
         (fun st => (add_personal_info_combinations
                       (in_name inputs) (in_phone inputs) (in_dob inputs)
                       (in_father_name inputs) (in_mother_name inputs)
                       (in_place inputs) st).1) st in
  let st :=
    when (truthy (in_pattern inputs))
         (fun st => gs_wordlist (generate_from_pattern
                                   (default "" (in_pattern inputs))
                                   (in_max_words inputs) st)) st in
  let st :=
    when (in_add_special inputs && truthy (in_special_chars inputs))
         (apply_special_chars (default "" (in_special_chars inputs))) st in
  let st := when (in_leetspeak inputs) (fun st => (apply_leetspeak st).1) st in
  finish (post_process listing (in_min_len inputs) (in_max_len inputs)
                       (in_max_words inputs) st).

(** ** The enumerations the generators are compared with *)

(** Every string of length [n] over [charset], in product order; there is
    none of a negative length. *)
Definition words_of_length (charset : list ascii) (n : Z) : list string :=
  if n <? 0 then []
  else join <$> Itertools.product (replicate (Z.to_nat n) charset).

(** The strings of the lengths [min_len], ..., [max_len], shortest first. *)
Definition charset_words (charset : string) (min_len max_len : Z)
    : list string :=
  n ← Itertools.range min_len (max_len + 1); words_of_length (chars charset) n.

(** Every string that a parsed pattern stands for, in product order. *)
Definition pattern_words (pattern : string) : list string :=
  match parse_pattern (chars pattern) with
  | [] => []
  | char_sets => join <$> Itertools.product (slot_chars <$> char_sets)
  end.

(** The third step of the transformer as the specification words it: for
    each subset of positions, every choice from the cartesian product of
    the positions' replacement lists, all replacements of a choice applied
    to one copy of the word. *)
Definition simultaneous_variants (word : string) : list string :=
  let leet_positions := leet_positions_of (lower word) in
  if bool_decide (leet_positions <> []) && (length leet_positions <=? 4)%nat
  then
    r ← seq 1 (Nat.min (length leet_positions + 1) 3 - 1);
    combo ← Itertools.combinations leet_positions r;
    choice ← Itertools.product ((fun p => replacements p.2) <$> combo);
    [join (foldr (fun pr acc => <[pr.1.1 := pr.2]> acc) (chars word)
                 (zip combo choice))]
  else [].

(** The title-case form as the specification words it for [name] and
    [place]: first letter capitalized, the rest unchanged. *)
Definition title_keep_rest (s : string) : string :=
  match s with
  | EmptyString => EmptyString
  | String c r => String (upper_char c) r
  end.

(** The date of birth without its separators. *)
Definition dob_clean_of (dob : string) : string :=
  remove_char "-" (remove_char "/" dob).

(** The store holds what it held at the start and what the loop produced. *)
Definition records (st0 : store) (s : gen_state) : Prop :=
  gs_wordlist s = st0 ∪ list_to_set (gs_produced s).

(** The counter equals the number of productions. *)
Definition counted (s : gen_state) : Prop :=
  gs_generated s = Z.of_nat (length (gs_produced s)).

Definition shorter_eq (w v : string) : Prop :=
  (String.length w <= String.length v)%nat.

(** ** Notions used in the statements about the remaining code *)

(** The number of tuples of a product: the product of the pool sizes. *)
Definition pool_sizes {A} (pools : list (list A)) : nat :=
  foldr (fun p acc => (length p * acc)%nat) 1%nat pools.

(** A slot offers at least one character and none twice. *)
Definition good_slot (sl : slot) : Prop :=
  NoDup (slot_chars sl) /\ slot_chars sl <> [].

(** The concatenated pairs that the last step of
    [add_personal_info_combinations] adds for a list of base words. *)
Definition pair_words (base_words : list string) : list string :=
  if (2 <=? length base_words)%nat then
    concat_strings <$> Itertools.combinations (take 4 base_words) 2
  else [].

(** The strings that [add_personal_info_combinations] derives from the
    base word [b]: the word itself, with a common suffix or prefix, and
    with a date or phone variant on either side. *)
Definition derived_from (variants : list string) (b w : string) : Prop :=
  w = b
  \/ (exists x, x ∈ common_suffixes /\ w = b +:+ x)
  \/ (exists x, x ∈ common_prefixes /\ w = x +:+ b)
  \/ (exists x, x ∈ variants /\ (w = b +:+ x \/ w = x +:+ b)).

(** The number of characters of a word that [apply_leetspeak] can
    replace. *)
Definition leet_count (word : string) : nat :=
  length (filter (fun c => is_Some (leetspeak_map (lower_char c)))
                 (chars word)).

(** The string that an optional prefix or suffix contributes. *)
Definition affix (o : option string) : string := default "" o.

(** A string of whitespace only. *)
Definition blank (s : string) : Prop :=
  Forall (fun c => isspace c = true) (chars s).

(** A string that neither begins nor ends with whitespace. *)
Definition stripped (w : string) : Prop :=
  (forall c, head (chars w) = Some c -> isspace c = false)
  /\ (forall c, last (chars w) = Some c -> isspace c = false).

(** *** [apply_leetspeak] on text outside ASCII *)

(** The definitions above take a word as ASCII text, on which
    [word.lower()] changes no position.  Python lower-cases by the Unicode
    rules, under which a word can grow (the capital I with a dot, code
    point 304, becomes the two code points 105 and 775), while the
    positions found in [word_lower] are used on [list(word)].  The
    definitions below take a word as the list of its code points and
    [str.lower] as a parameter, and keep the [IndexError] of
    [temp_word[pos] = replacement]. *)
Abbreviation ustr := (list N).

(** The code points of ASCII text. *)
Definition code_points (s : string) : ustr := N_of_ascii <$> chars s.

(** The lower-case form of one code point of ASCII: [A]-[Z] become
    [a]-[z], every other code point stays. *)
Definition lower_cp (c : N) : N :=
  if ((65 <=? c) && (c <=? 90))%N then (c + 32)%N else c.

(** [self.leetspeak_map] on code points: the keys [a e i o s t l g]. *)
Definition leetspeak_map_u (c : N) : option (list N) :=
  if decide (c = 97%N) then Some [52; 64]%N
  else if decide (c = 101%N) then Some [51]%N
  else if decide (c = 105%N) then Some [49; 33]%N
  else if decide (c = 111%N) then Some [48]%N
  else if decide (c = 115%N) then Some [53; 36]%N
  else if decide (c = 116%N) then Some [55]%N
  else if decide (c = 108%N) then Some [49]%N
  else if decide (c = 103%N) then Some [57]%N
  else None.

Definition replacements_u (char : N) : list N :=
  default [] (leetspeak_map_u char).

(** [temp_word[pos] = replacement]; [None] is the [IndexError] of a
    position that is not in the list. *)
Definition set_item (temp_word : ustr) (pos : nat) (replacement : N)
    : option ustr :=
  if decide (pos < length temp_word)%nat
  then Some (<[pos:=replacement]> temp_word)
  else None.

(** The number of characters of a word whose ASCII lower-case form is a
    key of the table. *)
Definition leet_count_u (word : ustr) : nat :=
  length (filter (fun c => is_Some (leetspeak_map_u (lower_cp c))) word).

Section any_text.

(** [str.lower]. *)
Variable py_lower : ustr -> ustr.

Definition leet_positions_u (word : ustr) : list (nat * N) :=
  filter (fun p => is_Some (leetspeak_map_u p.2)) (imap pair (py_lower word)).

(** The assignments made for one [word], in order, each with its outcome. *)
Definition leet_attempts_u (word : ustr) : list (option ustr) :=
  let leet_positions := leet_positions_u word in
  if bool_decide (leet_positions <> []) && (length leet_positions <=? 4)%nat
  then
    r ← seq 1 (Nat.min (length leet_positions + 1) 3 - 1);
    combo ← Itertools.combinations leet_positions r;
    let new_word := word in
    p ← combo;
    replacement ← replacements_u p.2;
    [set_item new_word p.1 replacement]
  else [].

(** The strings added to [new_words] for one [word]; [None] when an
    assignment raises. *)
Definition leet_variants_u (word : ustr) : option (list ustr) :=
  mapM id (leet_attempts_u word).

(** The set [new_words]; [None] when the loop raises for some word. *)
Definition leet_new_words_u (st : gset ustr) : option (gset ustr) :=
  new ← mapM leet_variants_u (elements st);
  Some (list_to_set (mjoin new)).

(** The store and the reported [len(new_words)]; [None] when the call
    raises, which leaves [self.wordlist] as it was. *)
Definition apply_leetspeak_u (st : gset ustr) : option (gset ustr * Z) :=
  new_words ← leet_new_words_u st;
  Some (st ∪ new_words, Z.of_nat (size new_words)).



End any_text.

(** [str.lower] on text made of ASCII and the capital I with a dot. *)
Definition lower_dotted_I (w : ustr) : ustr :=
  c ← w; if decide (c = 304%N) then [105; 775]%N else [lower_cp c].

(** ** Examples *)

Example product_ab2 :
  join <$> Itertools.product [chars "ab"; chars "ab"] = ["aa"; "ab"; "ba"; "bb"].
Proof. reflexivity. Qed.

Example combinations_3_2 :
  Itertools.combinations [1; 2; 3] 2 = [[1; 2]; [1; 3]; [2; 3]].
Proof. reflexivity. Qed.

Example range_ex : Itertools.range 1 3 = [1; 2] /\ Itertools.range 3 1 = [].
Proof. split; reflexivity. Qed.

Example capitalize_ex : capitalize "aLeX" = "Alex" /\ upper "aLeX" = "ALEX".
Proof. split; reflexivity. Qed.

(** ** Strings and lists of characters *)

Lemma join_chars s : join (chars s) = s.
Proof. apply string_of_list_ascii_of_string. Qed.

Lemma chars_join l : chars (join l) = l.
Proof. apply list_ascii_of_string_of_list_ascii. Qed.

Lemma length_chars s : length (chars s) = String.length s.
Proof. induction s as [|c s IH]; simpl; [done | by rewrite IH]. Qed.

Lemma length_join l : String.length (join l) = length l.
Proof. by rewrite <- length_chars, chars_join. Qed.

Lemma chars_lower s : chars (lower s) = lower_char <$> chars s.
Proof. induction s as [|c s IH]; simpl; [done | by rewrite IH]. Qed.

(** ** The parsing loop *)

(** With more fuel than characters left, the loop ends and has appended
    the parse of the rest of the pattern. *)
Lemma parse_while_spec fuel pattern i char_sets :
  (length pattern - i < fuel)%nat ->
  parse_while fuel pattern i char_sets
  = Some (char_sets ++ parse_pattern (drop i pattern)).
Proof.
  revert i char_sets; induction fuel as [|fuel IH]; intros i acc Hfuel;
    [lia|].
  simpl. destruct (pattern !! i) as [c|] eqn:Hi.
  - pose proof (lookup_lt_Some _ _ _ Hi) as Hlt.
    rewrite (drop_S _ _ _ Hi).
    assert (parse_while fuel pattern (i + 1) (acc ++ [Literal c])
            = Some (acc ++ Literal c :: parse_pattern (drop (S i) pattern)))
      as Hliteral.
    { rewrite IH by lia. rewrite <- app_assoc. simpl.
      by replace (i + 1)%nat with (S i) by lia. }
    simpl parse_pattern.
    destruct (decide (c = "?"%char)) as [->|Hc]; [|exact Hliteral].
    destruct (decide (i + 1 < length pattern)%nat) as [Hnext|Hlast].
    + destruct (lookup_lt_is_Some_2 pattern (S i)) as [d Hd]; [lia|].
      rewrite (drop_S _ _ _ Hd) in *. simpl take.
      destruct (charset_map _) as [cs|]; [|exact Hliteral].
      rewrite IH by lia. rewrite <- app_assoc. simpl.
      by replace (i + 2)%nat with (S (S i)) by lia.
    + rewrite Hliteral. by rewrite drop_ge by lia.
  - apply lookup_ge_None in Hi. rewrite drop_ge by lia.
    by rewrite app_nil_r.
Qed.

(** ** The enumeration loops *)

Lemma gen_add_records st0 combo s : records st0 s -> records st0 (gen_add combo s).
Proof.
  unfold records, gen_add; simpl; intros ->.
  rewrite list_to_set_app_L. set_solver.
Qed.

Lemma gen_add_counted combo s : counted s -> counted (gen_add combo s).
Proof.
  unfold counted, gen_add; simpl; intros ->. rewrite length_app; simpl. lia.
Qed.

Lemma gen_loop_records st0 count combos s :
  records st0 s -> records st0 (gen_loop count combos s).1.
Proof.
  revert s; induction combos as [|combo more IH]; intros s Hs; simpl; [done|].
  destruct (cap_reached _ _); simpl; auto using gen_add_records.
Qed.

Lemma gen_loop_counted count combos s :
  counted s -> counted (gen_loop count combos s).1.
Proof.
  revert s; induction combos as [|combo more IH]; intros s Hs; simpl; [done|].
  destruct (cap_reached _ _); simpl; auto using gen_add_counted.
Qed.

(** Without an effective cap the loop adds every combination and is not
    left early. *)
Lemma gen_loop_uncapped count combos s :
  (forall g, cap_reached count g = false) ->
  gs_produced (gen_loop count combos s).1 = gs_produced s ++ (join <$> combos)
  /\ (gen_loop count combos s).2 = false.
Proof.
  intros Hcap; revert s; induction combos as [|combo more IH]; intros s; simpl.
  - by rewrite app_nil_r.
  - rewrite Hcap. destruct (IH (gen_add combo s)) as [-> ->]; simpl.
    by rewrite <- app_assoc.
Qed.

(** With a cap [n >= 1] not yet reached the loop adds the first
    [n - generated] combinations, and is left early exactly when there
    are that many. *)
Lemma gen_loop_capped n combos s :
  1 <= n -> counted s -> gs_generated s < n ->
  let k := Z.to_nat (n - gs_generated s) in
  gs_produced (gen_loop (Some n) combos s).1
    = gs_produced s ++ take k (join <$> combos)
  /\ (gen_loop (Some n) combos s).2 = bool_decide (k <= length combos)%nat.
Proof.
  intros Hn; revert s; induction combos as [|combo more IH]; intros s Hc Hlt k.
  - simpl. rewrite take_nil, app_nil_r. split; [done|].
    rewrite bool_decide_eq_false_2; [done | subst k; simpl; lia].
  - simpl. unfold cap_reached.
    replace (n =? 0) with false by lia; simpl.
    destruct (n <=? gs_generated s + 1) eqn:Hle; simpl.
    + assert (k = 1%nat) as -> by (subst k; lia). split; [done|].
      rewrite bool_decide_eq_true_2; [done | lia].
    + destruct (IH (gen_add combo s)) as [-> ->];
        [by apply gen_add_counted | simpl; lia |].
      simpl. replace (Z.to_nat (n - (gs_generated s + 1))) with (pred k)
        by (subst k; lia).
      assert (k = S (pred k)) as Hk by (subst k; lia).
      split.
      * rewrite <- app_assoc. simpl. rewrite Hk at 2. done.
      * apply bool_decide_ext. lia.
Qed.


Lemma cap_reached_none g : cap_reached None g = false.
Proof. done. Qed.



Lemma charset_loop_counted count charset lengths s :
  counted s -> counted (charset_loop count charset lengths s).1.
Proof.
  revert s; induction lengths as [|n more IH]; intros s Hs; simpl; [done|].
  destruct (Itertools.product_repeat charset n) as [combos|]; [|done].
  pose proof (gen_loop_counted count combos s Hs).
  destruct (gen_loop count combos s).2; simpl; auto.
Qed.

Lemma charset_loop_records st0 count charset lengths s :
  records st0 s -> records st0 (charset_loop count charset lengths s).1.
Proof.
  revert s; induction lengths as [|n more IH]; intros s Hs; simpl; [done|].
  destruct (Itertools.product_repeat charset n) as [combos|]; [|done].
  pose proof (gen_loop_records st0 count combos s Hs).
  destruct (gen_loop count combos s).2; simpl; auto.
Qed.

Lemma gen_start_records st : records st (gen_start st).
Proof. unfold records; simpl. set_solver. Qed.

Lemma gen_start_counted st : counted (gen_start st).
Proof. done. Qed.

Lemma product_repeat_words charset n :
  0 <= n ->
  exists combos, Itertools.product_repeat charset n = Some combos
                 /\ join <$> combos = words_of_length charset n.
Proof.
  intros Hn. unfold Itertools.product_repeat, words_of_length.
  replace (n <? 0) with false by lia. eauto.
Qed.

(** For lengths that are not negative, an uncapped run adds every string of
    every length and returns normally. *)
Lemma charset_loop_uncapped count charset lengths s :
  (forall g, cap_reached count g = false) ->
  Forall (fun n => 0 <= n) lengths ->
  gs_produced (charset_loop count charset lengths s).1
    = gs_produced s ++ (lengths ≫= words_of_length charset)
  /\ (charset_loop count charset lengths s).2 = Returned.
Proof.
  intros Hcap Hall; revert s.
  induction Hall as [|n more Hn _ IH]; intros s; simpl.
  - by rewrite app_nil_r.
  - destruct (product_repeat_words charset n Hn) as (combos & -> & <-).
    destruct (gen_loop_uncapped count combos s Hcap) as [Hp ->].
    destruct (IH (gen_loop count combos s).1) as [-> ->].
    by rewrite Hp, <- app_assoc.
Qed.

(** For lengths that are not negative, a run capped at [n >= 1] adds the
    first [n - generated] strings and returns normally. *)
Lemma charset_loop_capped n charset lengths s :
  1 <= n -> Forall (fun m => 0 <= m) lengths ->
  counted s -> gs_generated s < n ->
  gs_produced (charset_loop (Some n) charset lengths s).1
    = gs_produced s ++ take (Z.to_nat (n - gs_generated s))
                            (lengths ≫= words_of_length charset)
  /\ (charset_loop (Some n) charset lengths s).2 = Returned.
Proof.
  intros Hn Hall; revert s.
  induction Hall as [|m more Hm _ IH]; intros s Hc Hlt; simpl.
  - by rewrite take_nil, app_nil_r.
  - destruct (product_repeat_words charset m Hm) as (combos & -> & <-).
    destruct (gen_loop_capped n combos s Hn Hc Hlt) as [Hp Hexit].
    pose proof (gen_loop_counted (Some n) combos s Hc) as Hc'.
    rewrite take_app, length_fmap.
    destruct (gen_loop (Some n) combos s).2 eqn:Hflag; simpl.
    + symmetry in Hexit. apply bool_decide_eq_true_1 in Hexit.
      split; [|done]. rewrite Hp.
      replace (Z.to_nat (n - gs_generated s) - length combos)%nat with 0%nat
        by lia.
      by rewrite take_0, app_nil_r.
    + symmetry in Hexit. apply bool_decide_eq_false_1 in Hexit.
      assert (length (gs_produced (gen_loop (Some n) combos s).1)
              = (length (gs_produced s) + length combos)%nat) as Hlen.
      { rewrite Hp, length_app, length_take, length_fmap. lia. }
      unfold counted in Hc, Hc'.
      destruct (IH (gen_loop (Some n) combos s).1) as [-> ->];
        [done | lia |].
      split; [|done]. rewrite Hp, <- app_assoc. do 3 f_equal. lia.
Qed.

Lemma range_nonneg a b : 0 <= a -> Forall (fun n => 0 <= n) (Itertools.range a b).
Proof.
  intros Ha. unfold Itertools.range. apply Forall_fmap, Forall_forall.
  intros k _; simpl. lia.
Qed.

Lemma range_empty a b : b <= a -> Itertools.range a b = [].
Proof.
  intros Hba. unfold Itertools.range.
  by replace (Z.to_nat (b - a)) with 0%nat by lia.
Qed.

(** ** Order of the productions *)

Lemma product_length {A} (pools : list (list A)) t :
  t ∈ Itertools.product pools -> length t = length pools.
Proof.
  revert t; induction pools as [|p ps IH]; intros t; simpl.
  - by intros ->%list_elem_of_singleton.
  - intros (c & (t' & -> & Ht')%list_elem_of_fmap & _)%list_elem_of_bind.
    simpl. by rewrite (IH t').
Qed.

Lemma words_of_length_length charset n w :
  w ∈ words_of_length charset n -> 0 <= n /\ String.length w = Z.to_nat n.
Proof.
  unfold words_of_length. destruct (n <? 0) eqn:Hn.
  - by intros ?%elem_of_nil.
  - intros (t & -> & Ht)%list_elem_of_fmap. split; [lia|].
    by rewrite length_join, (product_length _ _ Ht), length_replicate.
Qed.

Lemma same_length_sorted (k : nat) (ws : list string) :
  Forall (fun w => String.length w = k) ws -> StronglySorted shorter_eq ws.
Proof.
  induction 1 as [|w ws Hw Hws IH]; constructor; [done|].
  eapply Forall_impl; [exact Hws|]. unfold shorter_eq; simpl; lia.
Qed.

Lemma words_by_length_sorted charset (lengths : list Z) :
  StronglySorted Z.le lengths ->
  StronglySorted shorter_eq (lengths ≫= words_of_length charset).
Proof.
  induction 1 as [|n more _ IH Hn]; simpl; [constructor|].
  apply StronglySorted_app; split_and!; [| |exact IH].
  - intros w v Hw (m & Hv & Hm)%list_elem_of_bind.
    apply words_of_length_length in Hw as [? Hw].
    apply words_of_length_length in Hv as [? Hv].
    rewrite Forall_forall in Hn. specialize (Hn m Hm).
    unfold shorter_eq. lia.
  - apply (same_length_sorted (Z.to_nat n)), Forall_forall.
    intros w Hw. by apply words_of_length_length in Hw as [_ ?].
Qed.

Lemma range_sorted a b : StronglySorted Z.le (Itertools.range a b).
Proof.
  unfold Itertools.range. generalize (Z.to_nat (b - a)) as count.
  generalize 0%nat as start.
  intros start count; revert start.
  induction count as [|count IH]; intros start; simpl; constructor; [apply IH|].
  apply Forall_fmap, Forall_forall. intros k Hk%elem_of_seq; simpl. lia.
Qed.

Lemma charset_words_sorted charset min_len max_len :
  StronglySorted shorter_eq (charset_words charset min_len max_len).
Proof. apply words_by_length_sorted, range_sorted. Qed.

Lemma take_sorted {A} (R : relation A) k (l : list A) :
  StronglySorted R l -> StronglySorted R (take k l).
Proof.
  rewrite <- (take_drop k l) at 1. apply StronglySorted_app_1_l.
Qed.

(** ** The stores only grow *)

Lemma add_all_spec ws st w : w ∈ add_all ws st <-> w ∈ ws \/ w ∈ st.
Proof.
  unfold add_all. revert st; induction ws as [|v ws IH]; intros st; simpl.
  - set_solver.
  - rewrite IH. set_solver.
Qed.

Lemma add_all_subset ws st : st ⊆ add_all ws st.
Proof. intros w Hw. apply add_all_spec. by right. Qed.

Lemma add_word_combinations_subset dobs phones st word :
  st ⊆ add_word_combinations dobs phones st word.
Proof.
  unfold add_word_combinations. destruct (negb (nonempty word)); [done|].
  repeat (etrans; [|apply add_all_subset]). set_solver.
Qed.

Lemma foldl_subset {A} (f : store -> A -> store) (l : list A) st :
  (forall acc x, acc ⊆ f acc x) -> st ⊆ foldl f st l.
Proof.
  intros Hf; revert st; induction l as [|x l IH]; intros st; simpl; [done|].
  etrans; [apply (Hf st x) | apply IH].
Qed.

Lemma records_subset st0 s : records st0 s -> st0 ⊆ gs_wordlist s.
Proof. unfold records; intros ->. set_solver. Qed.

(** ** Properties of the generators and transforms *)

(** C4, as stated, fails for a negative minimum: [range] starts at the
    negative length, [itertools.product] refuses it, and the call raises
    before anything is produced, although the lengths 0, 1 and 2 lie in
    the range. *)
Lemma generate_from_charset_negative_min :
  ~ (forall (charset : string) (min_len max_len n : Z) (st : store),
       1 <= n ->
       gs_produced (generate_from_charset charset min_len max_len (Some n) st).1
       = take (Z.to_nat n) (charset_words charset min_len max_len)).
Proof.
  intros H. specialize (H "ab" (-1) 2 3 ∅ ltac:(lia)).
  vm_compute in H. discriminate H.
Qed.

(** C4 (amended): for a cap [n >= 1] and a minimum length that is not
    negative, [generate_from_charset] returns normally having produced
    exactly the first [n] strings of the enumeration by ascending length
    (all of them when there are fewer), so the productions are ordered by
    length, their number is the counter [generated] and at most [n], and
    nothing is produced after the cap is reached; the store gains exactly
    the productions.  When the minimum exceeds the maximum
    the call produces nothing and leaves the store as it was. *)
Theorem generate_from_charset_capped
    (charset : string) (min_len max_len n : Z) (st : store) :
  1 <= n ->
  let r := generate_from_charset charset min_len max_len (Some n) st in
  (0 <= min_len ->
     r.2 = Returned
     /\ gs_produced r.1
        = take (Z.to_nat n) (charset_words charset min_len max_len)
     /\ gs_generated r.1 = Z.of_nat (length (gs_produced r.1))
     /\ gs_generated r.1 <= n
     /\ StronglySorted shorter_eq (gs_produced r.1)
     /\ gs_wordlist r.1 = st ∪ list_to_set (gs_produced r.1))
  /\ (max_len < min_len ->
     r.2 = Returned /\ gs_produced r.1 = [] /\ gs_wordlist r.1 = st).
Proof.
  intros Hn r. split.
  - intros Hmin.
    destruct (charset_loop_capped n (chars charset)
                (Itertools.range min_len (max_len + 1)) (gen_start st))
      as [Hp Hr]; [done | by apply range_nonneg | done | simpl; lia |].
    simpl in Hp. rewrite Z.sub_0_r in Hp.
    assert (gs_produced r.1
            = take (Z.to_nat n) (charset_words charset min_len max_len))
      as Hprod by exact Hp.
    assert (gs_generated r.1 = Z.of_nat (length (gs_produced r.1))) as Hcount
      by apply charset_loop_counted, gen_start_counted.
    split_and!; [exact Hr | exact Hprod | exact Hcount | | |].
    + rewrite Hcount, Hprod, length_take. lia.
    + rewrite Hprod. apply take_sorted, charset_words_sorted.
    + apply (charset_loop_records st), gen_start_records.
  - intros Hlt. subst r. unfold generate_from_charset.
    rewrite range_empty by lia. simpl. done.
Qed.

(** The cap example of the specification: [generate_from_charset("ab", 1,
    2, count=3)] produces ["a"], ["b"], ["aa"], in this order. *)
Lemma generate_from_charset_capped_witness :
  let r := generate_from_charset "ab" 1 2 (Some 3) ∅ in
  1 <= 3 /\ 0 <= 1
  /\ r.2 = Returned
  /\ gs_produced r.1 = ["a"; "b"; "aa"]
  /\ gs_generated r.1 = 3
  /\ gs_generated r.1 <= 3
  /\ StronglySorted shorter_eq (gs_produced r.1)
  /\ gs_wordlist r.1 = ∅ ∪ list_to_set (gs_produced r.1).
Proof.
  split; [lia|]. split; [lia|].
  exact (proj1 (generate_from_charset_capped "ab" 1 2 3 ∅ ltac:(lia))
               ltac:(lia)).
Defined.



(** C7: after [filter_by_length] the store holds exactly the words it held
    before whose length lies in the closed interval; this holds for every
    pair of bounds, in particular when [min_len <= max_len].  The reported
    number is the number of words removed. *)
Theorem filter_by_length_exact (min_len max_len : Z) (st : store) :
  (forall w, w ∈ (filter_by_length min_len max_len st).1
             <-> w ∈ st /\ min_len <= len w <= max_len)
  /\ (filter_by_length min_len max_len st).1 ⊆ st
  /\ (filter_by_length min_len max_len st).2
     = Z.of_nat (size (st ∖ (filter_by_length min_len max_len st).1)).
Proof.
  unfold filter_by_length; simpl.
  assert (filter (fun w => min_len <= len w <= max_len) st ⊆ st) as Hsub.
  { intros w Hw. apply elem_of_filter in Hw. tauto. }
  split_and!; [|done|].
  - intros w. rewrite elem_of_filter. tauto.
  - rewrite size_difference by done.
    apply subseteq_size in Hsub. lia.
Qed.

(** ** [apply_leetspeak] *)

Lemma combinations_elem {A} (l : list A) r combo x :
  combo ∈ Itertools.combinations l r -> x ∈ combo -> x ∈ l.
Proof.
  revert r combo; induction l as [|y l IH]; intros [|r] combo; simpl.
  - intros ->%list_elem_of_singleton ?%elem_of_nil. done.
  - by intros ?%elem_of_nil.
  - intros ->%list_elem_of_singleton ?%elem_of_nil. done.
  - intros [(t & -> & Ht)%list_elem_of_fmap | Hc]%elem_of_app Hx.
    + apply elem_of_cons in Hx as [->|Hx]; [left | right; eauto].
    + right; eauto.
Qed.

(** A recorded position holds a character of the word whose lower-case
    form is a key of the table. *)
Lemma leet_positions_sound word p :
  p ∈ leet_positions_of (lower word) ->
  exists c, chars word !! p.1 = Some c /\ p.2 = lower_char c
            /\ is_Some (leetspeak_map (lower_char c)).
Proof.
  unfold leet_positions_of. rewrite chars_lower.
  intros [Hkey Hp]%list_elem_of_filter.
  apply list_elem_of_lookup in Hp as [k Hk].
  rewrite list_lookup_imap, list_lookup_fmap in Hk.
  destruct (chars word !! k) as [c|] eqn:Hc; simpl in Hk; [|done].
  injection Hk as <-. simpl in *. eauto.
Qed.

(** No replacement character equals the character it replaces. *)
Lemma replacement_differs c r : r ∈ replacements (lower_char c) -> r <> c.
Proof.
  intros Hr ->.
  destruct c as [[] [] [] [] [] [] [] []]; vm_compute in Hr;
    repeat (apply elem_of_cons in Hr as [Hr|Hr]; [discriminate Hr|]);
    by apply elem_of_nil in Hr.
Qed.

(** Every string built for a word is the word with one character replaced
    by a replacement of its lower-case form. *)
Lemma leet_variants_single word w :
  w ∈ leet_variants word ->
  exists i c r, chars word !! i = Some c
                /\ r ∈ replacements (lower_char c)
                /\ w = join (<[i:=r]> (chars word)).
Proof.
  unfold leet_variants.
  destruct (_ && _); [|by intros ?%elem_of_nil].
  intros (r & (combo & (p & (x & Hw & Hx)%list_elem_of_bind
    & Hp)%list_elem_of_bind & Hcombo)%list_elem_of_bind & _)%list_elem_of_bind.
  apply list_elem_of_singleton in Hw as ->.
  pose proof (combinations_elem _ _ _ _ Hcombo Hp) as Hpos.
  apply leet_positions_sound in Hpos as (c & Hc & Hp2 & _).
  exists p.1, c, x. rewrite Hp2 in Hx. done.
Qed.

Lemma leet_new_words_spec st w :
  w ∈ leet_new_words st <-> exists word, word ∈ st /\ w ∈ leet_variants word.
Proof.
  unfold leet_new_words. rewrite elem_of_list_to_set, list_elem_of_bind.
  split; intros (word & H1 & H2); exists word.
  - by rewrite elem_of_elements in H2.
  - by rewrite elem_of_elements.
Qed.

(** On ASCII text: what [apply_leetspeak] puts into the store
    ([new_words]) are strings obtained from a word of the store at call
    time by replacing the character at exactly one position with a
    replacement that the table lists for its lower-case form: the variant
    has the length of the word, differs from it at that position, and
    agrees with it at every other position. *)
Lemma leetspeak_single_substitution (st : store) :
  (apply_leetspeak st).1 = st ∪ leet_new_words st
  /\ forall w, w ∈ leet_new_words st ->
       exists word i c r,
         word ∈ st
         /\ chars word !! i = Some c
         /\ r ∈ replacements (lower_char c)
         /\ chars w = <[i:=r]> (chars word)
         /\ String.length w = String.length word
         /\ chars w !! i = Some r /\ r <> c
         /\ forall j, j <> i -> chars w !! j = chars word !! j.
Proof.
  split; [done|].
  intros w (word & Hword & Hw)%leet_new_words_spec.
  apply leet_variants_single in Hw as (i & c & r & Hc & Hr & ->).
  exists word, i, c, r. rewrite chars_join.
  split_and!; [done..| | | |].
  - by rewrite length_join, length_insert, length_chars.
  - apply list_lookup_insert_eq. by eapply lookup_lt_Some.
  - by apply replacement_differs.
  - intros j Hj. by apply list_lookup_insert_ne.
Qed.

(** C1: on the store holding ["as"] (two positions, [a] and [s]),
    [apply_leetspeak] adds the four single-position variants only.  The
    strings with both positions replaced, which the subsets of size 2
    stand for, are not added: the inner loops restart from the unchanged
    copy [new_word] for each replacement. *)
Theorem apply_leetspeak_pair_missing :
  elements (apply_leetspeak {["as"]}).1 = ["as"; "a5"; "a$"; "4s"; "@s"]
  /\ "45" ∈ simultaneous_variants "as"
  /\ ("45" ∉ (apply_leetspeak {["as"]}).1)
  /\ (forall w, w ∈ ["45"; "4$"; "@5"; "@$"] ->
                w ∉ (apply_leetspeak {["as"]}).1).
Proof.
  assert (elements (apply_leetspeak {["as"]}).1
          = ["as"; "a5"; "a$"; "4s"; "@s"]) as He by (by vm_compute).
  assert (forall w, w ∈ ["45"; "4$"; "@5"; "@$"] ->
                    w ∉ (apply_leetspeak {["as"]}).1) as Hnot.
  { intros w Hw Hin. apply elem_of_elements in Hin. rewrite He in Hin.
    repeat (apply elem_of_cons in Hw as [->|Hw];
            [repeat (apply elem_of_cons in Hin as [Hin|Hin];
                     [discriminate Hin|]);
             by apply elem_of_nil in Hin|]).
    by apply elem_of_nil in Hw. }
  split_and!; [exact He | vm_compute; repeat constructor | | exact Hnot].
  apply Hnot. left.
Qed.

(** C3: on the store holding ["a"] and ["4"], [apply_leetspeak] builds the
    variants ["4"] and ["@"] and reports 2, although only ["@"] is new:
    the store grows by 1.  In general the report is the size of
    [new_words], the growth the number of its elements that the store did
    not hold. *)
Theorem apply_leetspeak_reports_generated :
  let st : store := {["a"; "4"]} in
  (apply_leetspeak st).2 = 2
  /\ Z.of_nat (size (apply_leetspeak st).1) - Z.of_nat (size st) = 1
  /\ elements (apply_leetspeak st).1 = ["a"; "4"; "@"]
  /\ (forall st' : store,
        (apply_leetspeak st').2 = Z.of_nat (size (leet_new_words st'))
        /\ Z.of_nat (size (apply_leetspeak st').1) - Z.of_nat (size st')
           = Z.of_nat (size (leet_new_words st' ∖ st'))).
Proof.
  split_and!; [by vm_compute..|].
  intros st'. split; [done|].
  unfold apply_leetspeak; simpl. rewrite size_union_alt. lia.
Qed.

(** C8: every generator and transform leaves in the store whatever it
    held before the call. *)
Theorem generation_is_additive (st : store) :
  (forall pattern count,
     st ⊆ gs_wordlist (generate_from_pattern pattern count st))
  /\ (forall charset min_len max_len count,
     st ⊆ gs_wordlist (generate_from_charset charset min_len max_len count st).1)
  /\ (forall name phone dob father_name mother_name place,
     st ⊆ (add_personal_info_combinations
             name phone dob father_name mother_name place st).1)
  /\ st ⊆ (apply_leetspeak st).1
  /\ (forall prefix suffix, st ⊆ (apply_prefix_suffix prefix suffix st).1).
Proof.
  split_and!.
  - intros pattern count. apply records_subset. unfold generate_from_pattern.
    destruct (parse_pattern (chars pattern));
      [apply gen_start_records | apply gen_loop_records, gen_start_records].
  - intros charset min_len max_len count. apply records_subset.
    apply charset_loop_records, gen_start_records.
  - intros name phone dob father_name mother_name place.
    unfold add_personal_info_combinations; simpl.
    etrans; [apply (foldl_subset
                      (add_word_combinations (dob_variants_of dob)
                                             (phone_variants_of phone))
                      (base_words_of name father_name mother_name place));
             intros; apply add_word_combinations_subset|].
    match goal with |- context [if ?b then _ else _] => destruct b end;
      [apply add_all_subset | done].
  - unfold apply_leetspeak; simpl. set_solver.
  - intros prefix suffix. unfold apply_prefix_suffix.
    destruct (_ && _); simpl; set_solver.
Qed.

(** ** [add_personal_info_combinations] *)

(** C2, as stated, fails: the fourth form of a name is [name.capitalize()],
    which lower-cases the rest of the name.  For ["aLeX"] the base words
    are ["aLeX"], ["alex"], ["ALEX"], ["Alex"]; the form ["ALeX"] with the
    rest unchanged is not among them. *)
Lemma base_words_title_counterexample :
  ~ (forall name : string, nonempty name = true ->
       title_keep_rest name ∈ base_words_of (Some name) None None None).
Proof.
  intros H. specialize (H "aLeX" eq_refl). vm_compute in H.
  repeat (apply elem_of_cons in H as [H|H]; [discriminate H|]).
  by apply elem_of_nil in H.
Qed.

(** C2 (amended): a non-empty [name] (and likewise [place]) gives the base
    words original, lower-cased, upper-cased and capitalized; a non-empty
    father or mother name gives original, lower-cased and capitalized, no
    upper-cased form.  The capitalized form is the same for all four
    fields: first character upper-cased, every other character
    lower-cased.  The base-word list is the concatenation of the four
    fields' lists, in the order name, father, mother, place. *)
Theorem base_words_forms (n : string) :
  nonempty n = true ->
  base_words_of (Some n) None None None = [n; lower n; upper n; capitalize n]
  /\ base_words_of None None None (Some n)
     = [n; lower n; upper n; capitalize n]
  /\ base_words_of None (Some n) None None = [n; lower n; capitalize n]
  /\ base_words_of None None (Some n) None = [n; lower n; capitalize n]
  /\ (exists c r, n = String c r
                  /\ capitalize n = String (upper_char c) (lower r))
  /\ (forall name father_name mother_name place,
        base_words_of name father_name mother_name place
        = base_words_of name None None None
          ++ base_words_of None father_name None None
          ++ base_words_of None None mother_name None
          ++ base_words_of None None None place).
Proof.
  intros Hn. unfold base_words_of, when_given. rewrite Hn. simpl.
  split_and!; [done..| |].
  - destruct n as [|c r]; [discriminate Hn | by exists c, r].
  - intros. by rewrite !app_nil_r.
Qed.

(** The base words of the name ["aLeX"]. *)
Lemma base_words_forms_witness :
  nonempty "aLeX" = true
  /\ base_words_of (Some "aLeX") None None None
     = ["aLeX"; "alex"; "ALEX"; "Alex"].
Proof.
  split; [reflexivity|]. exact (proj1 (base_words_forms "aLeX" eq_refl)).
Defined.

(** C5: the date ["15/08/1990"] gives the variants below, among them the
    six the specification names; a date whose form without separators
    has fewer than 8 characters gives no variant, and the call then
    proceeds exactly as without a date of birth. *)
Theorem dob_variants_spec :
  dob_variants_of (Some "15/08/1990")
    = ["15081990"; "15081990"; "150890"; "1990"; "90"; "1508"; "081990"]
  /\ (forall v, v ∈ ["15081990"; "150890"; "1990"; "90"; "1508"; "081990"]
                -> v ∈ dob_variants_of (Some "15/08/1990"))
  /\ (forall dob, len (dob_clean_of dob) < 8 ->
        dob_variants_of (Some dob) = []
        /\ forall name phone father_name mother_name place st,
             add_personal_info_combinations
               name phone (Some dob) father_name mother_name place st
             = add_personal_info_combinations
                 name phone None father_name mother_name place st).
Proof.
  assert (forall dob, len (dob_clean_of dob) < 8 ->
                      dob_variants_of (Some dob) = []) as Hshort.
  { intros dob Hlen. unfold dob_variants_of, when_given.
    destruct (nonempty dob); [|done]. fold (dob_clean_of dob).
    by replace (8 <=? len (dob_clean_of dob)) with false by lia. }
  split_and!; [done | |].
  - change (dob_variants_of (Some "15/08/1990"))
      with ["15081990"; "15081990"; "150890"; "1990"; "90"; "1508"; "081990"].
    intros v Hv. set_solver.
  - intros dob Hlen. split; [by apply Hshort|].
    intros. unfold add_personal_info_combinations.
    by rewrite (Hshort dob Hlen).
Qed.

(** The date ["1/2/99"] has the 4 characters ["1299"] left: no variant. *)
Lemma dob_variants_spec_witness :
  len (dob_clean_of "1/2/99") < 8 /\ dob_variants_of (Some "1/2/99") = [].
Proof.
  assert (len (dob_clean_of "1/2/99") < 8) as Hlen by (vm_compute; reflexivity).
  split; [exact Hlen|].
  exact (proj1 (proj2 (proj2 dob_variants_spec) "1/2/99" Hlen)).
Defined.

(** ** [generate_from_pattern]: parsing *)

(** C6, as stated, fails: the character after a [?] that starts no known
    token is not always a literal slot.  In ["??l"] the token ["??"] is
    unknown, the first [?] becomes a literal, and the scan resumes at the
    second [?], which with [l] forms the known token ["?l"]. *)
Lemma parse_pattern_unknown_token_counterexample :
  ~ (forall (d : ascii) (rest : list ascii),
       charset_map (join ["?"%char; d]) = None ->
       parse_pattern ("?"%char :: d :: rest)
       = Literal "?" :: Literal d :: parse_pattern rest).
Proof.
  intros H. specialize (H "?"%char (chars "l") eq_refl).
  vm_compute in H. discriminate H.
Qed.

(** C6 (amended): parsing never fails: the loop ends within [len(pattern)]
    passes for every pattern, and yields a slot for every pattern that is
    not empty.  A [?] followed by a character that forms a known token
    becomes one expandable slot and the scan resumes after the token.  A
    [?] followed by a character that forms no known token, or at the end
    of the pattern, becomes a literal slot and the scan resumes at the next
    character; any other character becomes a literal slot.  So the
    character after such a [?] is a literal slot too unless it is itself a
    [?]; in particular ["?z"] parses to the two literal slots [?] and [z]. *)
Theorem parse_pattern_rules :
  (forall pattern,
     parse_while (S (length pattern)) pattern 0 [] = Some (parse_pattern pattern))
  /\ (forall d rest cs,
     charset_map (join ["?"%char; d]) = Some cs ->
     parse_pattern ("?"%char :: d :: rest) = Expandable cs :: parse_pattern rest)
  /\ (forall d rest,
     charset_map (join ["?"%char; d]) = None ->
     parse_pattern ("?"%char :: d :: rest)
     = Literal "?" :: parse_pattern (d :: rest))
  /\ (forall d rest,
     charset_map (join ["?"%char; d]) = None -> d <> "?"%char ->
     parse_pattern ("?"%char :: d :: rest)
     = Literal "?" :: Literal d :: parse_pattern rest)
  /\ parse_pattern ["?"%char] = [Literal "?"]
  /\ (forall c rest,
     c <> "?"%char -> parse_pattern (c :: rest) = Literal c :: parse_pattern rest)
  /\ (forall pattern, pattern <> [] -> parse_pattern pattern <> [])
  /\ parse_pattern (chars "?z") = [Literal "?"; Literal "z"]
  /\ parse_pattern (chars "??l")
     = [Literal "?"; Expandable PyString.ascii_lowercase].
Proof.
  assert (forall c rest, c <> "?"%char ->
            parse_pattern (c :: rest) = Literal c :: parse_pattern rest)
    as Hlit.
  { intros c rest Hc. simpl. by destruct (decide (c = "?"%char)). }
  assert (forall d rest,
            parse_pattern ("?"%char :: d :: rest)
            = match charset_map (join ["?"%char; d]) with
              | Some cs => Expandable cs :: parse_pattern rest
              | None => Literal "?" :: parse_pattern (d :: rest)
              end) as Hq by done.
  split_and!; [| | | | done | exact Hlit | | done | done].
  - intros pattern. by rewrite parse_while_spec by lia.
  - intros d rest cs Hcs. by rewrite Hq, Hcs.
  - intros d rest Hcs. by rewrite Hq, Hcs.
  - intros d rest Hcs Hd. by rewrite Hq, Hcs, (Hlit d rest Hd).
  - intros [|c tl] Hne; [done|]. simpl.
    destruct (decide (c = "?"%char)); [|done].
    destruct tl as [|d tl']; [done|].
    by destruct (charset_map _).
Qed.

(** The pattern ["?d"]: one expandable slot holding the digits. *)
Lemma parse_pattern_rules_witness :
  charset_map (join ["?"%char; "d"%char]) = Some PyString.digits
  /\ parse_pattern ("?"%char :: "d"%char :: [])
     = Expandable PyString.digits :: parse_pattern [].
Proof.
  split; [reflexivity|].
  exact (proj1 (proj2 parse_pattern_rules) "d"%char [] PyString.digits
               eq_refl).
Defined.

(** ** More on [itertools.product] *)

Lemma elem_of_product {A} (pools : list (list A)) t :
  t ∈ Itertools.product pools <-> Forall2 (fun c p => c ∈ p) t pools.
Proof.
  revert t; induction pools as [|p ps IH]; intros t; simpl.
  - rewrite list_elem_of_singleton. split; [by intros ->|].
    intros H. by inversion H.
  - rewrite list_elem_of_bind. split.
    + intros (c & (t' & -> & Ht')%list_elem_of_fmap & Hc).
      constructor; [done | by apply IH].
    + intros H. inversion H as [|c p' t' ps' Hc Ht']; subst.
      exists c. split; [|done]. apply list_elem_of_fmap.
      exists t'. split; [done | by apply IH].
Qed.

Lemma length_product {A} (pools : list (list A)) :
  length (Itertools.product pools) = pool_sizes pools.
Proof.
  unfold pool_sizes. induction pools as [|p ps IH]; simpl; [done|].
  rewrite <- IH. clear IH.
  induction p as [|c p IHp]; [done|].
  rewrite bind_cons, length_app, length_fmap, IHp. simpl. lia.
Qed.

Lemma NoDup_product {A} (pools : list (list A)) :
  Forall NoDup pools -> NoDup (Itertools.product pools).
Proof.
  induction 1 as [|p ps Hp _ IH]; simpl; [apply NoDup_singleton|].
  induction Hp as [|c p Hc _ IHp]; simpl; [constructor|].
  apply NoDup_app; split_and!; [| |exact IHp].
  - by apply (NoDup_fmap_2 _).
  - intros t (t' & -> & _)%list_elem_of_fmap
      (c' & (t'' & [= <- _] & _)%list_elem_of_fmap & Hc')%list_elem_of_bind.
    done.
Qed.


Lemma pool_sizes_replicate {A} (pool : list A) n :
  pool_sizes (replicate n pool) = (length pool ^ n)%nat.
Proof. induction n as [|n IH]; simpl; [done | by rewrite IH]. Qed.

Global Instance join_inj : Inj (=) (=) join.
Proof. intros l k H. by rewrite <- (chars_join l), <- (chars_join k), H. Qed.

(** ** The slots of a pattern *)

Lemma charset_map_good key cs :
  charset_map key = Some cs -> NoDup (chars cs) /\ chars cs <> [].
Proof.
  unfold charset_map. intros H.
  repeat (case_decide; [injection H as <-; split;
                          [by apply (bool_decide_unpack _); vm_compute | done]|]).
  done.
Qed.

Lemma parse_pattern_good_upto n pattern :
  (length pattern <= n)%nat -> Forall good_slot (parse_pattern pattern).
Proof.
  revert pattern; induction n as [|n IH]; intros [|c tl] Hlen; simpl in *;
    try (constructor; fail); [lia|].
  assert (good_slot (Literal c)) as Hc.
  { split; simpl; [apply NoDup_singleton | done]. }
  assert (Forall good_slot (Literal c :: parse_pattern tl)) as Hlit.
  { constructor; [done | apply IH; lia]. }
  destruct (decide (c = "?"%char)); [|done].
  destruct tl as [|d tl']; [done|].
  destruct (charset_map _) as [cs|] eqn:Hcs; [|done].
  constructor; [by apply charset_map_good in Hcs | apply IH; simpl in *; lia].
Qed.

Lemma parse_pattern_good pattern : Forall good_slot (parse_pattern pattern).
Proof. by apply (parse_pattern_good_upto (length pattern)). Qed.

Lemma parse_pattern_nil pattern : parse_pattern pattern = [] -> pattern = [].
Proof.
  destruct pattern as [|c tl]; [done|]. simpl.
  destruct (decide (c = "?"%char)); [|done].
  destruct tl as [|d tl']; [done|]. by destruct (charset_map _).
Qed.

Lemma chars_nil s : chars s = [] -> s = "".
Proof. by destruct s. Qed.

Lemma pattern_words_unfold pattern :
  pattern <> "" ->
  pattern_words pattern
  = join <$> Itertools.product (slot_chars <$> parse_pattern (chars pattern)).
Proof.
  intros Hne. unfold pattern_words.
  destruct (parse_pattern (chars pattern)) eqn:Hp; [|done].
  apply parse_pattern_nil, chars_nil in Hp. done.
Qed.

Lemma generate_from_pattern_unfold pattern count st :
  pattern <> "" ->
  generate_from_pattern pattern count st
  = (gen_loop count
       (Itertools.product (slot_chars <$> parse_pattern (chars pattern)))
       (gen_start st)).1.
Proof.
  intros Hne. unfold generate_from_pattern.
  destruct (parse_pattern (chars pattern)) eqn:Hp; [|done].
  apply parse_pattern_nil, chars_nil in Hp. done.
Qed.




(** ** [generate_from_pattern]: enumeration *)

(** X1: with a cap [n >= 1], [generate_from_pattern] produces exactly the
    first [n] strings of the pattern in product order (all of them when
    there are fewer): the counter is the number of productions and at most
    [n], and the store gains exactly the productions. *)
Theorem generate_from_pattern_capped (pattern : string) (n : Z) (st : store) :
  1 <= n ->
  let g := generate_from_pattern pattern (Some n) st in
  gs_produced g = take (Z.to_nat n) (pattern_words pattern)
  /\ gs_generated g = Z.of_nat (length (gs_produced g))
  /\ gs_generated g <= n
  /\ gs_wordlist g = st ∪ list_to_set (gs_produced g).
Proof.
  intros Hn g.
  assert (counted g /\ records st g) as [Hc Hr].
  { subst g. unfold generate_from_pattern.
    destruct (parse_pattern (chars pattern)); split;
      auto using gen_start_counted, gen_start_records,
                 gen_loop_counted, gen_loop_records. }
  assert (gs_produced g = take (Z.to_nat n) (pattern_words pattern)) as Hp.
  { subst g. unfold generate_from_pattern, pattern_words.
    destruct (parse_pattern (chars pattern)) as [|sl sls];
      [by rewrite take_nil|].
    destruct (gen_loop_capped n
                (Itertools.product (slot_chars <$> sl :: sls)) (gen_start st))
      as [Hp _]; [done | done | simpl; lia |].
    simpl in Hp. by rewrite Z.sub_0_r in Hp. }
  split_and!; [done | done | | done].
  rewrite Hc, Hp, length_take. lia.
Qed.

(** The pattern ["a?d"] capped at 2. *)
Lemma generate_from_pattern_capped_witness :
  1 <= 2 /\ gs_produced (generate_from_pattern "a?d" (Some 2) ∅) = ["a0"; "a1"].
Proof.
  assert (1 <= 2) as H by lia. split; [exact H|].
  exact (proj1 (generate_from_pattern_capped "a?d" 2 ∅ H)).
Defined.

(** X2: the strings of a non-empty pattern are exactly the strings with
    one character per slot, each taken from its slot; no string is
    enumerated twice, and their number is the product of the slot sizes.
    Without a cap [generate_from_pattern] produces them all and the store
    gains exactly these strings. *)
Theorem pattern_words_shape (pattern : string) :
  pattern <> "" ->
  (forall w, w ∈ pattern_words pattern
             <-> Forall2 (fun c sl => c ∈ slot_chars sl)
                         (chars w) (parse_pattern (chars pattern)))
  /\ NoDup (pattern_words pattern)
  /\ length (pattern_words pattern)
     = pool_sizes (slot_chars <$> parse_pattern (chars pattern))
  /\ forall st,
       gs_produced (generate_from_pattern pattern None st) = pattern_words pattern
       /\ gs_wordlist (generate_from_pattern pattern None st)
          = st ∪ list_to_set (pattern_words pattern).
Proof.
  intros Hne. rewrite pattern_words_unfold by done. split_and!.
  - intros w. rewrite list_elem_of_fmap. split.
    + intros (t & -> & Ht). rewrite chars_join.
      by rewrite elem_of_product, Forall2_fmap_r in Ht.
    + intros Hw. exists (chars w). split; [by rewrite join_chars|].
      by rewrite elem_of_product, Forall2_fmap_r.
  - apply (NoDup_fmap_2 _), NoDup_product, Forall_fmap.
    eapply Forall_impl; [apply parse_pattern_good|]. by intros sl [? _].
  - by rewrite length_fmap, length_product.
  - intros st. rewrite generate_from_pattern_unfold by done.
    destruct (gen_loop_uncapped None
                (Itertools.product (slot_chars <$> parse_pattern (chars pattern)))
                (gen_start st) cap_reached_none) as [Hp _].
    simpl in Hp. split; [done|]. rewrite <- Hp.
    apply (gen_loop_records st), gen_start_records.
Qed.

(** The pattern ["?l?d"] stands for 26 * 10 strings. *)
Lemma pattern_words_shape_witness :
  "?l?d" <> "" /\ length (pattern_words "?l?d") = 260%nat.
Proof.
  assert ("?l?d" <> "") as H by discriminate. split; [exact H|].
  exact (proj1 (proj2 (proj2 (pattern_words_shape "?l?d" H)))).
Defined.



(** ** [generate_from_charset]: errors, counts, the empty alphabet *)

Lemma range_cons a b :
  a < b -> Itertools.range a b = a :: Itertools.range (a + 1) b.
Proof.
  intros Hab. unfold Itertools.range.
  replace (Z.to_nat (b - a)) with (S (Z.to_nat (b - (a + 1)))) by lia.
  simpl. f_equal; [lia|].
  rewrite <- fmap_S_seq, <- list_fmap_compose.
  apply list_fmap_ext. intros i k _. simpl. lia.
Qed.

Lemma range_single a : Itertools.range a (a + 1) = [a].
Proof. rewrite range_cons by lia. by rewrite range_empty by lia. Qed.

Lemma charset_loop_returned count charset lengths s :
  Forall (fun n => 0 <= n) lengths ->
  (charset_loop count charset lengths s).2 = Returned.
Proof.
  intros Hall; revert s. induction Hall as [|n more Hn _ IH]; intros s; simpl;
    [done|].
  destruct (product_repeat_words charset n Hn) as (combos & -> & _).
  destruct (gen_loop count combos s).2; [done | apply IH].
Qed.

Lemma product_repeat_empty {A} n :
  1 <= n -> Itertools.product_repeat (@nil A) n = Some [].
Proof.
  intros Hn. unfold Itertools.product_repeat.
  replace (n <? 0) with false by lia.
  by replace (Z.to_nat n) with (S (Z.to_nat (n - 1))) by lia.
Qed.

Lemma charset_loop_empty_alphabet count lengths s :
  Forall (fun n => 1 <= n) lengths ->
  charset_loop count [] lengths s = (s, Returned).
Proof.
  induction 1 as [|n more Hn _ IH]; simpl; [done|].
  by rewrite product_repeat_empty.
Qed.

Lemma range_from a b : Forall (fun n => a <= n) (Itertools.range a b).
Proof.
  unfold Itertools.range. apply Forall_fmap, Forall_forall.
  intros k _; simpl. lia.
Qed.

Lemma elem_of_words_of_length charset n w :
  w ∈ words_of_length charset n
  <-> 0 <= n /\ String.length w = Z.to_nat n
      /\ Forall (fun c => c ∈ charset) (chars w).
Proof.
  unfold words_of_length. destruct (n <? 0) eqn:Hn.
  - split; [by intros ?%elem_of_nil | lia].
  - rewrite list_elem_of_fmap. split.
    + intros (t & -> & Ht). apply elem_of_product in Ht.
      rewrite length_join, chars_join.
      split_and!; [lia | |].
      * apply Forall2_length in Ht. by rewrite length_replicate in Ht.
      * apply Forall_forall. intros c Hc.
        apply list_elem_of_lookup in Hc as [i Hi].
        destruct (Forall2_lookup_l _ _ _ _ _ Ht Hi) as (p & Hp & Hcp).
        by apply lookup_replicate in Hp as [-> _].
    + intros (_ & Hlen & Hall). exists (chars w).
      split; [by rewrite join_chars|].
      apply elem_of_product.
      rewrite <- Hlen, <- length_chars.
      clear Hlen. induction Hall; simpl; constructor; auto.
Qed.

Lemma length_words_of_length charset n :
  0 <= n ->
  length (words_of_length charset n) = (length charset ^ Z.to_nat n)%nat.
Proof.
  intros Hn. unfold words_of_length. replace (n <? 0) with false by lia.
  by rewrite length_fmap, length_product, pool_sizes_replicate.
Qed.

(** X4: [generate_from_charset] raises exactly when the minimum length is
    negative and the range of lengths is not empty; it then raises at
    once: nothing has been produced and the store is as it was. *)
Theorem generate_from_charset_raises
    (charset : string) (min_len max_len : Z) (count : option Z) (st : store) :
  let r := generate_from_charset charset min_len max_len count st in
  (r.2 = ValueError <-> min_len < 0 /\ min_len <= max_len)
  /\ (r.2 = ValueError -> gs_produced r.1 = [] /\ gs_wordlist r.1 = st).
Proof.
  intros r. subst r. unfold generate_from_charset.
  destruct (decide (min_len < 0 /\ min_len <= max_len)) as [[Hneg Hle]|Hok].
  - rewrite range_cons by lia. simpl.
    unfold Itertools.product_repeat. replace (min_len <? 0) with true by lia.
    simpl. split; [split; [lia | done] | done].
  - assert ((charset_loop count (chars charset)
               (Itertools.range min_len (max_len + 1)) (gen_start st)).2
            = Returned) as Hr.
    { destruct (decide (0 <= min_len)) as [Hmin|Hmin].
      - by apply charset_loop_returned, range_nonneg.
      - by rewrite range_empty by lia. }
    rewrite Hr. split; [split; [done | tauto] | done].
Qed.

(** The call with the alphabet ["ab"] and the lengths from -1 to 2. *)
Lemma generate_from_charset_raises_witness :
  (generate_from_charset "ab" (-1) 2 None ∅).2 = ValueError
  /\ gs_produced (generate_from_charset "ab" (-1) 2 None ∅).1 = []
  /\ gs_wordlist (generate_from_charset "ab" (-1) 2 None ∅).1 = ∅.
Proof.
  assert ((generate_from_charset "ab" (-1) 2 None ∅).2 = ValueError) as H
    by reflexivity.
  split; [exact H|].
  exact (proj2 (generate_from_charset_raises "ab" (-1) 2 None ∅) H).
Defined.

(** X5: for one length [n >= 0] and no cap, [generate_from_charset]
    produces exactly the strings of length [n] over the alphabet: their
    number, counted by [generated], is the size of the alphabet to the
    power [n], and no string is produced twice unless a character occurs
    twice in the alphabet. *)
Theorem generate_from_charset_one_length
    (charset : string) (n : Z) (st : store) :
  0 <= n ->
  let r := generate_from_charset charset n n None st in
  r.2 = Returned
  /\ (forall w, w ∈ gs_produced r.1
                <-> String.length w = Z.to_nat n
                    /\ Forall (fun c => c ∈ chars charset) (chars w))
  /\ gs_generated r.1 = Z.of_nat (length (chars charset) ^ Z.to_nat n)
  /\ (NoDup (chars charset) -> NoDup (gs_produced r.1))
  /\ (forall w, w ∈ gs_wordlist r.1 <-> w ∈ st \/ w ∈ gs_produced r.1).
Proof.
  intros Hn r.
  assert (gs_produced r.1 = words_of_length (chars charset) n /\ r.2 = Returned)
    as [Hp Hr].
  { subst r. unfold generate_from_charset. rewrite range_single.
    destruct (charset_loop_uncapped None (chars charset) [n] (gen_start st)
                cap_reached_none) as [Hp Hr]; [by repeat constructor|].
    split; [|done]. rewrite Hp. simpl. by rewrite app_nil_r. }
  assert (counted r.1) as Hc
    by apply charset_loop_counted, gen_start_counted.
  assert (records st r.1) as Hrec
    by apply charset_loop_records, gen_start_records.
  split_and!; [done | | | |].
  - intros w. rewrite Hp, elem_of_words_of_length. tauto.
  - rewrite Hc, Hp. by rewrite length_words_of_length.
  - intros Hnd. rewrite Hp. unfold words_of_length.
    replace (n <? 0) with false by lia.
    apply (NoDup_fmap_2 _), NoDup_product, Forall_replicate. done.
  - intros w. rewrite Hrec. set_solver.
Qed.

(** The eight strings of length 3 over ["ab"]. *)
Lemma generate_from_charset_one_length_witness :
  0 <= 3 /\ gs_generated (generate_from_charset "ab" 3 3 None ∅).1 = 8.
Proof.
  assert (0 <= 3) as H by lia. split; [exact H|].
  exact (proj1 (proj2 (proj2 (generate_from_charset_one_length "ab" 3 ∅ H)))).
Defined.

(** X6: with the empty alphabet and a minimum length of at least 1 the
    call produces nothing and leaves the store as it was.  With the
    minimum length 0 it produces the empty string, once, and nothing
    else: the empty string enters the store. *)
Theorem generate_from_charset_empty_alphabet
    (min_len max_len : Z) (count : option Z) (st : store) :
  let r := generate_from_charset "" min_len max_len count st in
  (1 <= min_len ->
     r.2 = Returned /\ gs_produced r.1 = [] /\ gs_wordlist r.1 = st)
  /\ (min_len = 0 -> 0 <= max_len ->
     r.2 = Returned /\ gs_produced r.1 = [""]
     /\ gs_wordlist r.1 = {[""]} ∪ st).
Proof.
  intros r. subst r. unfold generate_from_charset. split.
  - intros Hmin. rewrite charset_loop_empty_alphabet; [done|].
    eapply Forall_impl; [apply range_from|]. simpl. lia.
  - intros -> Hmax. rewrite range_cons by lia. simpl.
    destruct (cap_reached _ _); simpl; [done|].
    rewrite charset_loop_empty_alphabet; [done|].
    eapply Forall_impl; [apply range_from|]. simpl. lia.
Qed.

(** The empty alphabet with the lengths 0 to 2. *)
Lemma generate_from_charset_empty_alphabet_witness :
  0 <= 2 /\ gs_produced (generate_from_charset "" 0 2 (Some 5) ∅).1 = [""].
Proof.
  assert (0 <= 2) as H by lia. split; [exact H|].
  exact (proj1 (proj2 (proj2 (generate_from_charset_empty_alphabet
                                0 2 (Some 5) ∅) eq_refl H))).
Defined.

(** ** More on strings *)

Lemma chars_append a b : chars (a +:+ b) = chars a ++ chars b.
Proof.
  induction a as [|c a IH]; [done|].
  change (c :: chars (a +:+ b) = c :: chars a ++ chars b). by rewrite IH.
Qed.

Lemma join_app l k : join (l ++ k) = join l +:+ join k.
Proof.
  induction l as [|c l IH]; [done|].
  change (String c (join (l ++ k)) = String c (join l +:+ join k)).
  by rewrite IH.
Qed.

Lemma append_empty_r s : s +:+ "" = s.
Proof.
  induction s as [|c s IH]; [done|].
  change (String c (s +:+ "") = String c s). by rewrite IH.
Qed.

Lemma length_append a b :
  String.length (a +:+ b) = (String.length a + String.length b)%nat.
Proof. by rewrite <- !length_chars, chars_append, length_app. Qed.

Lemma append_inj_l a b c : a +:+ c = b +:+ c -> a = b.
Proof.
  intros H. apply (f_equal chars) in H. rewrite !chars_append in H.
  apply app_inv_tail in H. by rewrite <- (join_chars a), H, join_chars.
Qed.

Lemma filter_chars_all p s :
  Forall (fun c => p c = true) (chars (filter_chars p s)).
Proof.
  induction s as [|c s IH]; simpl; [constructor|].
  destruct (p c) eqn:Hc; simpl; [by constructor | done].
Qed.

Lemma last_chars_suffix k s : exists pre, s = pre +:+ last_chars k s.
Proof.
  exists (join (take (String.length s - k) (chars s))).
  unfold last_chars. by rewrite <- join_app, take_drop, join_chars.
Qed.

Lemma length_last_chars k s :
  String.length (last_chars k s) = Nat.min k (String.length s).
Proof.
  unfold last_chars. rewrite length_join, length_drop, length_chars. lia.
Qed.

Lemma nonempty_lower s : nonempty (lower s) = nonempty s.
Proof. by destruct s. Qed.

Lemma nonempty_upper s : nonempty (upper s) = nonempty s.
Proof. by destruct s. Qed.

Lemma nonempty_capitalize s : nonempty (capitalize s) = nonempty s.
Proof. by destruct s. Qed.

(** ** More on [itertools.combinations] *)

Lemma combinations_spec {A} (l : list A) r c :
  c ∈ Itertools.combinations l r <-> c `sublist_of` l /\ length c = r.
Proof.
  revert r c; induction l as [|x tl IH]; intros [|r] c; simpl.
  - rewrite list_elem_of_singleton, sublist_nil_r. split; [by intros ->|tauto].
  - rewrite sublist_nil_r. split; [by intros ?%elem_of_nil|].
    by intros [-> ?].
  - rewrite list_elem_of_singleton. split.
    + intros ->. split; [apply sublist_nil_l | done].
    + intros [_ Hc]. by destruct c.
  - rewrite elem_of_app, list_elem_of_fmap, sublist_cons_r, IH. split.
    + intros [(c' & -> & [Hs Hl]%IH)|[Hs Hl]].
      * split; [right; eauto | simpl; lia].
      * split; [by left | done].
    + intros [[Hs|(c' & -> & Hs)] Hl].
      * by right.
      * left. exists c'. split; [done|]. apply IH. simpl in Hl. split; [done|lia].
Qed.

(** ** [add_personal_info_combinations]: what is added *)

Lemma when_given_nonempty field f w :
  (forall s, nonempty s = true -> Forall (fun v => nonempty v = true) (f s)) ->
  w ∈ when_given field f -> nonempty w = true.
Proof.
  intros Hf. unfold when_given. destruct field as [s|]; [|by intros ?%elem_of_nil].
  destruct (nonempty s) eqn:Hs; [|by intros ?%elem_of_nil].
  intros Hw. specialize (Hf s Hs). rewrite Forall_forall in Hf. auto.
Qed.

Lemma base_words_nonempty name father_name mother_name place w :
  w ∈ base_words_of name father_name mother_name place -> nonempty w = true.
Proof.
  unfold base_words_of. rewrite !elem_of_app.
  intros [H|[H|[H|H]]]; revert H; apply when_given_nonempty;
    intros s Hs; repeat constructor;
    by rewrite ?nonempty_lower, ?nonempty_upper, ?nonempty_capitalize.
Qed.

Lemma add_word_combinations_spec dobs phones st word w :
  w ∈ add_word_combinations dobs phones st word
  <-> w ∈ st
      \/ (nonempty word = true /\ derived_from (dobs ++ phones) word w).
Proof.
  unfold add_word_combinations, derived_from.
  destruct (nonempty word); cbv [negb].
  - rewrite !add_all_spec, elem_of_union, elem_of_singleton.
    rewrite !list_elem_of_fmap, !list_elem_of_bind.
    setoid_rewrite elem_of_app.
    setoid_rewrite elem_of_cons. setoid_rewrite list_elem_of_singleton.
    split.
    + intros [(x & Hw & Hx)|[(x & Hw & Hx)|[(x & -> & Hx)|[(x & -> & Hx)|[->|Hw]]]]];
        [right; split; [done|]; do 3 right; exists x; tauto
        |right; split; [done|]; do 3 right; exists x; tauto
        |right; split; [done|]; right; right; left; eauto
        |right; split; [done|]; right; left; eauto
        |right; split; [done|]; by left
        |by left].
    + intros [Hw|[_ [->|[(x & Hx & ->)|[(x & Hx & ->)|(x & [Hx|Hx] & Hw)]]]]];
        [by do 5 right
        |do 4 right; by left
        |do 3 right; left; eauto
        |do 2 right; left; eauto
        |right; left; eauto
        |left; eauto].
  - split; [by left|]. by intros [?|[? _]].
Qed.

Lemma foldl_add_word_combinations_spec dobs phones base_words st w :
  w ∈ foldl (add_word_combinations dobs phones) st base_words
  <-> w ∈ st
      \/ exists b, b ∈ base_words /\ nonempty b = true
                   /\ derived_from (dobs ++ phones) b w.
Proof.
  revert st; induction base_words as [|b bs IH]; intros st; simpl.
  - split; [by left|]. intros [?|(b & ?%elem_of_nil & _)]; done.
  - rewrite IH, add_word_combinations_spec. setoid_rewrite elem_of_cons.
    split.
    + intros [[?|[Hb Hw]]|(b' & Hb' & Hw)]; [by left | |right; eauto].
      right. exists b. eauto.
    + intros [?|(b' & [->|Hb'] & Hne & Hw)];
        [by left; left | left; by right | right; eauto].
Qed.

Lemma add_personal_info_store name phone dob father_name mother_name place st :
  (add_personal_info_combinations
     name phone dob father_name mother_name place st).1
  = add_all (pair_words (base_words_of name father_name mother_name place))
      (foldl (add_word_combinations (dob_variants_of dob)
                                    (phone_variants_of phone))
             st (base_words_of name father_name mother_name place)).
Proof.
  unfold add_personal_info_combinations, pair_words; simpl.
  by match goal with |- context [if ?b then _ else _] => destruct b end.
Qed.

Lemma add_personal_info_subset name phone dob father_name mother_name place st :
  st ⊆ (add_personal_info_combinations
          name phone dob father_name mother_name place st).1.
Proof.
  rewrite add_personal_info_store.
  etrans; [|apply add_all_subset].
  apply foldl_subset. intros. apply add_word_combinations_subset.
Qed.

Lemma pair_words_spec base_words w :
  w ∈ pair_words base_words
  <-> exists a b, [a; b] `sublist_of` take 4 base_words /\ w = a +:+ b.
Proof.
  unfold pair_words. destruct (2 <=? length base_words)%nat eqn:Hlen.
  - rewrite list_elem_of_fmap. split.
    + intros (c & -> & [Hs Hl]%combinations_spec).
      destruct c as [|a [|b [|? ?]]]; try done.
      exists a, b. split; [done|]. simpl. by rewrite append_empty_r.
    + intros (a & b & Hs & ->). exists [a; b].
      split; [simpl; by rewrite append_empty_r|].
      by apply combinations_spec.
  - split; [by intros ?%elem_of_nil|].
    intros (a & b & Hs%sublist_length & _).
    rewrite length_take in Hs. change (length [a; b]) with 2%nat in Hs.
    apply Nat.leb_gt in Hlen. lia.
Qed.

(** X7: the store after [add_personal_info_combinations] holds exactly
    what it held before; every base word, alone, followed by a common
    suffix, preceded by a common prefix, and followed or preceded by a
    date or phone variant; and the concatenation of every two of the
    first four base words, in list order.  The reported number is the
    number of strings that the store did not hold before. *)
Theorem add_personal_info_exact
    (name phone dob father_name mother_name place : option string)
    (st : store) :
  let r := add_personal_info_combinations
             name phone dob father_name mother_name place st in
  let base_words := base_words_of name father_name mother_name place in
  (forall w,
     w ∈ r.1
     <-> w ∈ st
         \/ (exists b, b ∈ base_words
               /\ (w = b
                   \/ (exists x, x ∈ common_suffixes /\ w = b +:+ x)
                   \/ (exists x, x ∈ common_prefixes /\ w = x +:+ b)
                   \/ (exists x, x ∈ dob_variants_of dob ++ phone_variants_of phone
                                 /\ (w = b +:+ x \/ w = x +:+ b))))
         \/ (exists a b, [a; b] `sublist_of` take 4 base_words /\ w = a +:+ b))
  /\ r.2 = Z.of_nat (size (r.1 ∖ st)).
Proof.
  intros r base_words. split.
  - intros w. subst r. rewrite add_personal_info_store.
    rewrite add_all_spec, pair_words_spec, foldl_add_word_combinations_spec.
    fold base_words. unfold derived_from. split.
    + intros [?|[?|(b & Hb & _ & Hw)]]; [by right; right | by left |].
      right; left. by exists b.
    + intros [?|[(b & Hb & Hw)|?]]; [by right; left | | by left].
      right; right. exists b. split; [done|]. split; [|done].
      by apply base_words_nonempty in Hb.
  - pose proof (add_personal_info_subset
                  name phone dob father_name mother_name place st) as Hsub.
    fold r in Hsub. rewrite size_difference by done.
    apply subseteq_size in Hsub.
    assert (r.2 = Z.of_nat (size r.1) - Z.of_nat (size st)) as -> by done.
    lia.
Qed.

(** X8: without a name, father name, mother name or place the call leaves
    the store as it was and reports 0, also when a phone number and a date
    of birth are given. *)
Theorem add_personal_info_needs_a_word
    (name phone dob father_name mother_name place : option string)
    (st : store) :
  truthy name = false -> truthy father_name = false ->
  truthy mother_name = false -> truthy place = false ->
  add_personal_info_combinations
    name phone dob father_name mother_name place st = (st, 0).
Proof.
  intros Hn Hf Hm Hp.
  assert (forall field f, truthy field = false -> when_given field f = [])
    as Hnone.
  { intros [s|] f H; simpl in *; [by rewrite H | done]. }
  unfold add_personal_info_combinations, base_words_of.
  rewrite !Hnone by done. simpl. f_equal. lia.
Qed.

(** A phone number and a date of birth alone. *)
Lemma add_personal_info_needs_a_word_witness :
  add_personal_info_combinations
    None (Some "9123456789") (Some "15/08/1990") None (Some "") None {["x"]}
  = ({["x"]}, 0).
Proof.
  exact (add_personal_info_needs_a_word
           None (Some "9123456789") (Some "15/08/1990") None (Some "") None
           {["x"]} eq_refl eq_refl eq_refl eq_refl).
Defined.

(** X9: when a name is given, the first four base words are the four forms
    of the name, so the concatenated pairs are the six pairs of these
    forms: the forms of the father name, mother name and place take no
    part in the pairs. *)
Theorem pairs_of_name_only
    (n : string) (father_name mother_name place : option string) :
  nonempty n = true ->
  pair_words (base_words_of (Some n) father_name mother_name place)
  = [n +:+ lower n; n +:+ upper n; n +:+ capitalize n;
     lower n +:+ upper n; lower n +:+ capitalize n;
     upper n +:+ capitalize n]
  /\ forall phone dob st,
       (add_personal_info_combinations
          (Some n) phone dob father_name mother_name place st).1
       = add_all
           (pair_words (base_words_of (Some n) father_name mother_name place))
           (foldl (add_word_combinations (dob_variants_of dob)
                                         (phone_variants_of phone))
                  st (base_words_of (Some n) father_name mother_name place)).
Proof.
  intros Hn. split; [|intros; apply add_personal_info_store].
  unfold pair_words, base_words_of. simpl. rewrite Hn. simpl.
  by rewrite !append_empty_r.
Qed.

(** The name ["Al"] with the father name ["Bo"]. *)
Lemma pairs_of_name_only_witness :
  nonempty "Al" = true
  /\ pair_words (base_words_of (Some "Al") (Some "Bo") None None)
     = ["Alal"; "AlAL"; "AlAl"; "alAL"; "alAl"; "ALAl"].
Proof.
  split; [reflexivity|].
  exact (proj1 (pairs_of_name_only "Al" (Some "Bo") None None eq_refl)).
Defined.

(** X10: the phone variants are the digits of the phone number and their
    last 4, 6 and 8 characters: each consists of digits only, is an end
    of the digit string, and a digit string shorter than the requested
    end gives the whole string.  A phone number without a digit gives
    four empty variants, and the call then adds what it adds without a
    phone number. *)
Theorem phone_variants_digits (phone : string) :
  nonempty phone = true ->
  let phone_clean := filter_chars isdigit phone in
  phone_variants_of (Some phone)
    = [phone_clean; last_chars 4 phone_clean; last_chars 6 phone_clean;
       last_chars 8 phone_clean]
  /\ (forall v, v ∈ phone_variants_of (Some phone) ->
        Forall (fun c => isdigit c = true) (chars v)
        /\ exists pre, phone_clean = pre +:+ v)
  /\ (forall k, String.length (last_chars k phone_clean)
                = Nat.min k (String.length phone_clean))
  /\ (phone_clean = "" ->
      forall name dob father_name mother_name place st,
        (add_personal_info_combinations
           name (Some phone) dob father_name mother_name place st).1
        = (add_personal_info_combinations
             name None dob father_name mother_name place st).1).
Proof.
  intros Hne phone_clean.
  assert (phone_variants_of (Some phone)
          = [phone_clean; last_chars 4 phone_clean; last_chars 6 phone_clean;
             last_chars 8 phone_clean]) as Hv.
  { unfold phone_variants_of, when_given. by rewrite Hne. }
  split_and!; [done | | intros k; apply length_last_chars |].
  - intros v. rewrite Hv. intros Hin.
    assert (exists pre, phone_clean = pre +:+ v) as [pre Hpre].
    { repeat (apply elem_of_cons in Hin as [->|Hin];
              [first [by exists "" | apply last_chars_suffix]|]).
      by apply elem_of_nil in Hin. }
    split; [|by exists pre].
    pose proof (filter_chars_all isdigit phone) as Hall.
    fold phone_clean in Hall. rewrite Hpre, chars_append in Hall.
    by apply Forall_app in Hall as [_ ?].
  - intros Hempty name dob father_name mother_name place st.
    rewrite !add_personal_info_store. f_equal.
    rewrite Hv, Hempty. simpl phone_variants_of.
    generalize (base_words_of name father_name mother_name place) as bws.
    intros bws; revert st. induction bws as [|b bs IH]; intros st; simpl; [done|].
    rewrite <- IH. f_equal.
    apply set_eq. intros w. rewrite !add_word_combinations_spec.
    rewrite app_nil_r. unfold derived_from.
    split; (intros [?|[Hb H]]; [by left|]); right; (split; [done|]).
    + destruct H as [?|[?|[?|(x & Hx & H)]]]; [tauto..|].
      apply elem_of_app in Hx as [Hx|Hx]; [do 3 right; eauto|].
      left. assert (x = "") as ->.
      { repeat (apply elem_of_cons in Hx as [->|Hx]; [done|]).
        by apply elem_of_nil in Hx. }
      simpl in H. rewrite append_empty_r in H. tauto.
    + destruct H as [?|[?|[?|(x & Hx & H)]]]; [tauto..|].
      do 3 right. exists x. split; [by apply elem_of_app; left | done].
Qed.

(** The phone number ["+91-912-345-6789"]. *)
Lemma phone_variants_digits_witness :
  nonempty "+91-912-345-6789" = true
  /\ phone_variants_of (Some "+91-912-345-6789")
     = ["919123456789"; "6789"; "456789"; "23456789"].
Proof.
  split; [reflexivity|].
  exact (proj1 (phone_variants_digits "+91-912-345-6789" eq_refl)).
Defined.

(** ** [apply_leetspeak]: which variants, and how many *)

Lemma length_filter_imap {A B} (P : B -> Prop) `{!forall b, Decision (P b)}
    (g : nat -> A) (l : list B) :
  length (filter (fun p => P p.2) (imap (fun i b => (g i, b)) l))
  = length (filter P l).
Proof.
  revert g; induction l as [|b l IH]; intros g; [done|].
  rewrite imap_cons, !filter_cons. simpl.
  specialize (IH (g ∘ S)).
  destruct (decide (P b)); simpl; by rewrite <- IH.
Qed.

Lemma length_leet_positions word :
  length (leet_positions_of (lower word)) = leet_count word.
Proof.
  unfold leet_positions_of, leet_count. rewrite chars_lower.
  etrans;
    [exact (length_filter_imap (fun c => is_Some (leetspeak_map c)) id
              (lower_char <$> chars word))|].
  induction (chars word) as [|c l IH]; [done|].
  rewrite fmap_cons, !filter_cons. simpl.
  destruct (decide (is_Some (leetspeak_map (lower_char c)))); simpl;
    by rewrite IH.
Qed.

Lemma leet_positions_complete word i c :
  chars word !! i = Some c ->
  is_Some (leetspeak_map (lower_char c)) ->
  (i, lower_char c) ∈ leet_positions_of (lower word).
Proof.
  intros Hi Hkey. unfold leet_positions_of. rewrite chars_lower.
  apply list_elem_of_filter. split; [done|].
  apply (elem_of_lookup_imap_2 pair _ (lower_char c) i).
  by rewrite list_lookup_fmap, Hi.
Qed.

Lemma replacements_key c r : r ∈ replacements c -> is_Some (leetspeak_map c).
Proof.
  unfold replacements. destruct (leetspeak_map c); [eauto|].
  by intros ?%elem_of_nil.
Qed.


Lemma combinations_single {A} (l : list A) x :
  x ∈ l -> [x] ∈ Itertools.combinations l 1.
Proof.
  intros Hx. apply combinations_spec. split; [|done].
  by apply singleton_sublist_l.
Qed.

Lemma leet_variants_guard word :
  leet_variants word <> [] -> (1 <= leet_count word <= 4)%nat.
Proof.
  unfold leet_variants. rewrite length_leet_positions.
  destruct (bool_decide _) eqn:Hne; simpl; [|done].
  destruct (leet_count word <=? 4)%nat eqn:Hle; [|done].
  intros _. apply Nat.leb_le in Hle.
  apply bool_decide_eq_true_1 in Hne.
  rewrite <- length_leet_positions in *.
  destruct (leet_positions_of (lower word)); [done | simpl in *; lia].
Qed.






(** On ASCII text, the variants of a word: a word with between one and
    four replaceable characters gives every string obtained by replacing
    one of them by one of its replacements, and nothing else; a word with
    no or with more than four replaceable characters gives nothing. *)
Lemma leet_variants_exact (word w : string) :
  w ∈ leet_variants word
  <-> (1 <= leet_count word <= 4)%nat
      /\ exists i c r,
           chars word !! i = Some c
           /\ r ∈ replacements (lower_char c)
           /\ w = join (<[i:=r]> (chars word)).
Proof.
  split.
  - intros Hw. split; [|by apply leet_variants_single].
    apply leet_variants_guard. intros Hnil. rewrite Hnil in Hw.
    by apply elem_of_nil in Hw.
  - intros [Hk (i & c & r & Hi & Hr & ->)].
    pose proof (leet_positions_complete word i c Hi (replacements_key _ _ Hr))
      as Hp.
    unfold leet_variants. rewrite length_leet_positions.
    rewrite bool_decide_eq_true_2
      by (intros Hnil; by rewrite Hnil in Hp; apply elem_of_nil in Hp).
    replace (leet_count word <=? 4)%nat with true
      by (symmetry; apply Nat.leb_le; lia).
    simpl. apply list_elem_of_bind. exists 1%nat. split.
    + apply list_elem_of_bind. exists [(i, lower_char c)]. split.
      * apply list_elem_of_bind. exists (i, lower_char c).
        split; [|by left].
        apply list_elem_of_bind. exists r. split; [by left | done].
      * by apply combinations_single.
    + apply elem_of_seq. lia.
Qed.



(** ** [apply_prefix_suffix] and the loop over the special characters *)

Lemma append_assoc a b c : (a +:+ b) +:+ c = a +:+ (b +:+ c).
Proof.
  rewrite <- (join_chars ((a +:+ b) +:+ c)), <- (join_chars (a +:+ (b +:+ c))).
  by rewrite !chars_append, app_assoc.
Qed.

Lemma modified_word_affix prefix suffix word :
  modified_word prefix suffix word = affix prefix +:+ word +:+ affix suffix.
Proof.
  unfold modified_word, affix.
  destruct prefix as [[|c p]|], suffix as [[|d s]|]; simpl;
    by rewrite ?append_empty_r, ?append_assoc.
Qed.

Global Instance modified_word_inj prefix suffix :
  Inj (=) (=) (modified_word prefix suffix).
Proof.
  intros v w. rewrite !modified_word_affix. intros H.
  apply (inj (String.app _)) in H. by apply append_inj_l in H.
Qed.

Lemma size_set_map_inj (f : string -> string) `{!Inj (=) (=) f} (st : store) :
  size (set_map f st : store) = size st.
Proof.
  unfold set_map. rewrite size_list_to_set; [by rewrite length_fmap|].
  apply (NoDup_fmap_2 _), NoDup_elements.
Qed.

Lemma apply_prefix_suffix_store prefix suffix st :
  truthy prefix || truthy suffix = true ->
  (apply_prefix_suffix prefix suffix st).1
  = st ∪ set_map (modified_word prefix suffix) st.
Proof.
  intros H. unfold apply_prefix_suffix.
  by destruct (truthy prefix), (truthy suffix).
Qed.

(** X13: without a prefix and a suffix (absent or empty) the call changes
    nothing and reports nothing.  Otherwise the store gains, for every
    word it holds, the word between the prefix and the suffix, and keeps
    its words; the reported number is the number of words the store held
    before, whether or not the built words are new. *)
Theorem apply_prefix_suffix_exact (prefix suffix : option string) (st : store) :
  (truthy prefix = false -> truthy suffix = false ->
   apply_prefix_suffix prefix suffix st = (st, None))
  /\ (truthy prefix || truthy suffix = true ->
      (forall w, w ∈ (apply_prefix_suffix prefix suffix st).1
                 <-> w ∈ st
                     \/ exists v, v ∈ st
                          /\ w = affix prefix +:+ v +:+ affix suffix)
      /\ (apply_prefix_suffix prefix suffix st).2
         = Some (Z.of_nat (size st))).
Proof.
  split.
  - intros Hp Hs. unfold apply_prefix_suffix. by rewrite Hp, Hs.
  - intros H. split.
    + intros w. rewrite apply_prefix_suffix_store by done.
      rewrite elem_of_union, elem_of_map.
      setoid_rewrite modified_word_affix. naive_solver.
    + unfold apply_prefix_suffix.
      replace (negb (truthy prefix) && negb (truthy suffix)) with false
        by (by destruct (truthy prefix), (truthy suffix)).
      simpl. by rewrite size_set_map_inj by apply _.
Qed.

(** The suffix ["!"] on a store that already holds ["a!"]: 2 is reported
    and one word is new. *)
Lemma apply_prefix_suffix_exact_witness :
  (apply_prefix_suffix None (Some "!") {["a"; "a!"]}).2 = Some 2
  /\ elements (apply_prefix_suffix None (Some "!") {["a"; "a!"]}).1
     = ["a!!"; "a!"; "a"].
Proof.
  split; [|by vm_compute].
  exact (proj2 (proj2 (apply_prefix_suffix_exact None (Some "!") {["a"; "a!"]})
                      eq_refl)).
Defined.

Lemma apply_suffix_char_spec c st w :
  w ∈ (apply_prefix_suffix None (Some (String c EmptyString)) st).1
  <-> w ∈ st \/ exists v, v ∈ st /\ w = v +:+ String c EmptyString.
Proof.
  rewrite apply_prefix_suffix_store by done.
  rewrite elem_of_union, elem_of_map. setoid_rewrite modified_word_affix.
  unfold affix; simpl. naive_solver.
Qed.

Lemma apply_special_list_spec (cs : list ascii) (st : store) w :
  w ∈ foldl (fun st char =>
               (apply_prefix_suffix None (Some (String char EmptyString)) st).1)
            st cs
  <-> exists v s, v ∈ st /\ s `sublist_of` cs /\ w = v +:+ join s.
Proof.
  revert st; induction cs as [|c cs IH]; intros st; simpl.
  - split.
    + intros Hw. exists w, []. by rewrite append_empty_r.
    + intros (v & s & Hv & ->%sublist_nil_r & ->). by rewrite append_empty_r.
  - rewrite IH. split.
    + intros (v & s & [Hv|(v0 & Hv0 & ->)]%apply_suffix_char_spec & Hs & ->).
      * exists v, s. split_and!; [done | by apply sublist_cons_r; left | done].
      * exists v0, (c :: s). split_and!; [done | by apply sublist_skip | ].
        by rewrite append_assoc.
    + intros (v & s & Hv & [Hs|(s' & -> & Hs)]%sublist_cons_r & ->).
      * exists v, s. split_and!; [|done..].
        apply apply_suffix_char_spec. by left.
      * exists (v +:+ String c EmptyString), s'. split_and!; [|done|].
        -- apply apply_suffix_char_spec. right. eauto.
        -- by rewrite append_assoc.
Qed.

(** X14: the loop that applies each special character as a suffix works
    on the store as grown by the characters before it: afterwards the
    store holds exactly its words followed by a selection of the special
    characters, in their order (among them the words themselves). *)
Theorem apply_special_chars_exact (special_chars : string) (st : store) :
  forall w, w ∈ apply_special_chars special_chars st
            <-> exists v s, v ∈ st
                  /\ s `sublist_of` chars special_chars
                  /\ w = v +:+ join s.
Proof. intros w. apply apply_special_list_spec. Qed.

(** ** [filter_by_length] *)

Lemma elem_of_filter_by_length min_len max_len st w :
  w ∈ (filter_by_length min_len max_len st).1
  <-> w ∈ st /\ min_len <= len w <= max_len.
Proof. unfold filter_by_length; simpl. rewrite elem_of_filter. tauto. Qed.

Lemma filter_by_length_subset min_len max_len st :
  (filter_by_length min_len max_len st).1 ⊆ st.
Proof. intros w Hw. by apply elem_of_filter_by_length in Hw as [? _]. Qed.

Lemma filter_by_length_report min_len max_len st :
  (filter_by_length min_len max_len st).2
  = Z.of_nat (size st) - Z.of_nat (size (filter_by_length min_len max_len st).1).
Proof. done. Qed.

(** X15: filtering twice keeps the words whose length lies in both
    intervals; a second filtering with the same bounds removes nothing and
    reports 0; bounds with [min_len > max_len] empty the store and report
    its size; the reported number is never negative nor larger than the
    store. *)
Theorem filter_by_length_compose (a b c d : Z) (st : store) :
  (filter_by_length a b (filter_by_length c d st).1).1
    = (filter_by_length (Z.max a c) (Z.min b d) st).1
  /\ filter_by_length a b (filter_by_length a b st).1
     = ((filter_by_length a b st).1, 0)
  /\ (b < a -> filter_by_length a b st = (∅, Z.of_nat (size st)))
  /\ 0 <= (filter_by_length a b st).2 <= Z.of_nat (size st).
Proof.
  assert (forall st' : store,
            (forall w, w ∈ st' -> a <= len w <= b) ->
            (filter_by_length a b st').1 = st') as Hfix.
  { intros st' H. apply set_eq. intros w.
    rewrite elem_of_filter_by_length. naive_solver. }
  split; [|split; [|split]].
  - apply set_eq. intros w. rewrite !elem_of_filter_by_length. split.
    + intros [[Hw ?] ?]. split; [done | lia].
    + intros [Hw ?]. split; [split; [done | lia] | lia].
  - assert ((filter_by_length a b (filter_by_length a b st).1).1
            = (filter_by_length a b st).1) as Hidem.
    { apply Hfix. intros w Hw. by apply elem_of_filter_by_length in Hw as [_ ?]. }
    rewrite (surjective_pairing (filter_by_length a b _)).
    rewrite filter_by_length_report, Hidem. f_equal. lia.
  - intros Hba.
    assert ((filter_by_length a b st).1 = ∅) as Hempty.
    { apply set_eq. intros w. rewrite elem_of_filter_by_length.
      split; [lia | by intros ?%elem_of_empty]. }
    rewrite (surjective_pairing (filter_by_length a b st)).
    rewrite filter_by_length_report, Hempty, size_empty. f_equal. lia.
  - rewrite filter_by_length_report.
    pose proof (subseteq_size _ _ (filter_by_length_subset a b st)). lia.
Qed.

(** Bounds in the wrong order. *)
Lemma filter_by_length_compose_witness :
  5 < 8 /\ filter_by_length 8 5 {["abc"; "abcdef"]} = (∅, 2).
Proof.
  assert (5 < 8) as H by lia. split; [exact H|].
  transitivity (∅ : store, Z.of_nat (size ({["abc"; "abcdef"]} : store)));
    [|by vm_compute].
  exact (proj1 (proj2 (proj2 (filter_by_length_compose 8 5 0 0
                                {["abc"; "abcdef"]}))) H).
Defined.

(** ** [limit_wordcount] *)

Lemma slice_to_sublist {A} n (l : list A) : slice_to n l `sublist_of` l.
Proof. unfold slice_to. destruct (0 <=? n); apply sublist_take. Qed.

Lemma length_slice_to {A} n (l : list A) :
  Z.of_nat (length (slice_to n l))
  = if 0 <=? n then Z.min n (Z.of_nat (length l))
    else Z.max 0 (Z.of_nat (length l) + n).
Proof.
  unfold slice_to. destruct (0 <=? n) eqn:Hn; rewrite length_take; lia.
Qed.

Section limit_wordcount.

Context (listing : store -> list string).
Hypothesis listing_perm : forall st, listing st ≡ₚ elements st.

Lemma listing_NoDup st : NoDup (listing st).
Proof. rewrite listing_perm. apply NoDup_elements. Qed.

Lemma length_listing st : length (listing st) = size st.
Proof. by rewrite listing_perm. Qed.

Lemma elem_of_listing st w : w ∈ listing st <-> w ∈ st.
Proof. by rewrite listing_perm, elem_of_elements. Qed.

Lemma limit_wordcount_subset max_words st :
  limit_wordcount listing max_words st ⊆ st.
Proof.
  unfold limit_wordcount. destruct (_ >? _); [|done].
  intros w Hw%elem_of_list_to_set. apply elem_of_listing.
  eapply sublist_subseteq; [apply slice_to_sublist | done].
Qed.

Lemma limit_wordcount_cut max_words st :
  Z.of_nat (size st) > max_words ->
  Z.of_nat (size (limit_wordcount listing max_words st))
  = if 0 <=? max_words then max_words
    else Z.max 0 (Z.of_nat (size st) + max_words).
Proof.
  intros Hgt. unfold limit_wordcount.
  replace (Z.of_nat (size st) >? max_words) with true by lia.
  rewrite size_list_to_set
    by (apply (sublist_NoDup _ (listing st));
        [apply listing_NoDup | apply slice_to_sublist]).
  rewrite length_slice_to, length_listing.
  destruct (0 <=? max_words) eqn:Hm; lia.
Qed.

(** X16: for a maximum that is not negative, [limit_wordcount] keeps a
    part of the store of exactly the maximum size, or the whole store when
    it is no larger than the maximum: the size afterwards is the smaller
    of the maximum and the size before.  This holds in whatever order the
    store is listed. *)
Theorem limit_wordcount_size (max_words : Z) (st : store) :
  0 <= max_words ->
  limit_wordcount listing max_words st ⊆ st
  /\ Z.of_nat (size (limit_wordcount listing max_words st))
     = Z.min max_words (Z.of_nat (size st))
  /\ (Z.of_nat (size st) <= max_words ->
      limit_wordcount listing max_words st = st).
Proof.
  intros Hmax. split_and!; [apply limit_wordcount_subset | |].
  - destruct (decide (Z.of_nat (size st) > max_words)) as [Hgt|Hle].
    + rewrite limit_wordcount_cut by done.
      replace (0 <=? max_words) with true by lia. lia.
    + unfold limit_wordcount.
      replace (Z.of_nat (size st) >? max_words) with false by lia. lia.
  - intros Hle. unfold limit_wordcount.
    by replace (Z.of_nat (size st) >? max_words) with false by lia.
Qed.

(** X17: a negative maximum is not refused: the store is always larger, and
    the slice [[:max_words]] drops [-max_words] of its words (all of them
    when it holds no more). *)
Theorem limit_wordcount_negative (max_words : Z) (st : store) :
  max_words < 0 ->
  limit_wordcount listing max_words st ⊆ st
  /\ Z.of_nat (size (limit_wordcount listing max_words st))
     = Z.max 0 (Z.of_nat (size st) + max_words).
Proof.
  intros Hmax. split; [apply limit_wordcount_subset|].
  rewrite limit_wordcount_cut by lia.
  by replace (0 <=? max_words) with false by lia.
Qed.

End limit_wordcount.

(** Three words limited to two, listed as [elements] lists them. *)
Lemma limit_wordcount_size_witness :
  0 <= 2
  /\ Z.of_nat (size (limit_wordcount elements 2 {["a"; "b"; "c"]}))
     = Z.min 2 (Z.of_nat (size ({["a"; "b"; "c"]} : store))).
Proof.
  assert (0 <= 2) as H by lia. split; [exact H|].
  exact (proj1 (proj2 (limit_wordcount_size elements
                         (fun st => reflexivity (elements st))
                         2 {["a"; "b"; "c"]} H))).
Defined.

(** Three words limited to -1: two are left. *)
Lemma limit_wordcount_negative_witness :
  -1 < 0
  /\ Z.of_nat (size (limit_wordcount elements (-1) {["a"; "b"; "c"]}))
     = Z.max 0 (Z.of_nat (size ({["a"; "b"; "c"]} : store)) + -1).
Proof.
  assert (-1 < 0) as H by lia. split; [exact H|].
  exact (proj2 (limit_wordcount_negative elements
                  (fun st => reflexivity (elements st))
                  (-1) {["a"; "b"; "c"]} H)).
Defined.

(** ** [save_to_file] *)

(** X18: the strings written are the words of the store, each once and
    followed by a newline, in ascending order of their character codes;
    this order is the only sorted arrangement of the words. *)
Theorem save_to_file_sorted (st : store) :
  save_to_file st = (fun word => word +:+ newline) <$> sorted_words st
  /\ StronglySorted String.le (sorted_words st)
  /\ NoDup (sorted_words st)
  /\ (forall w, w ∈ sorted_words st <-> w ∈ st)
  /\ length (save_to_file st) = size st
  /\ (forall l, l ≡ₚ elements st -> StronglySorted String.le l ->
                l = sorted_words st).
Proof.
  assert (sorted_words st ≡ₚ elements st) as Hperm
    by apply merge_sort_Permutation.
  assert (StronglySorted String.le (sorted_words st)) as Hsorted
    by apply (StronglySorted_merge_sort _).
  split_and!; [done | done | | | |].
  - rewrite Hperm. apply NoDup_elements.
  - intros w. by rewrite Hperm, elem_of_elements.
  - unfold save_to_file. by rewrite length_fmap, Hperm.
  - intros l Hl Hs. apply (StronglySorted_unique String.le); [done..|].
    by rewrite Hl, Hperm.
Qed.

(** ** [add_from_file] *)

Lemma lstrip_chars_spec l :
  exists pre, l = pre ++ lstrip_chars l
              /\ Forall (fun c => isspace c = true) pre
              /\ forall c, head (lstrip_chars l) = Some c -> isspace c = false.
Proof.
  induction l as [|c l (pre & Hl & Hpre & Hhead)]; simpl.
  - exists []. split_and!; [done | constructor | done].
  - destruct (isspace c) eqn:Hc.
    + exists (c :: pre). split_and!; [simpl; by f_equal | by constructor | done].
    + exists []. split_and!; [done | constructor |].
      by intros ? [= <-].
Qed.

Lemma lstrip_chars_blank_app pre l :
  Forall (fun c => isspace c = true) pre ->
  (forall c, head l = Some c -> isspace c = false) ->
  lstrip_chars (pre ++ l) = l.
Proof.
  intros Hpre Hl. induction Hpre as [|c pre Hc _ IH]; simpl.
  - destruct l as [|c l]; [done|]. simpl. by rewrite (Hl c).
  - by rewrite Hc.
Qed.

Lemma strip_spec s :
  exists pre post, s = pre +:+ strip s +:+ post
                   /\ blank pre /\ blank post /\ stripped (strip s).
Proof.
  destruct (lstrip_chars_spec (chars s)) as (pre & Hs & Hpre & Hhead).
  destruct (lstrip_chars_spec (reverse (lstrip_chars (chars s))))
    as (post & Hm & Hpost & Hlast).
  set (m := lstrip_chars (chars s)) in *.
  set (r := lstrip_chars (reverse m)) in *.
  assert (m = reverse r ++ reverse post) as Hm'.
  { by rewrite <- reverse_app, <- Hm, reverse_involutive. }
  exists (join pre), (join (reverse post)).
  unfold blank, stripped, strip. fold m. fold r. rewrite !chars_join.
  split_and!.
  - by rewrite <- !join_app, <- Hm', <- Hs, join_chars.
  - done.
  - by apply Forall_reverse.
  - intros c Hc. apply Hhead. rewrite Hm'.
    destruct (reverse r); [done | by simpl in *].
  - intros c Hc. apply Hlast. by rewrite <- last_reverse.
Qed.

Lemma strip_stripped w post :
  stripped w -> blank post -> strip (w +:+ post) = w.
Proof.
  intros [Hhead Hlast] Hpost. unfold strip. rewrite chars_append.
  destruct (chars w) as [|c l] eqn:Hw.
  - apply chars_nil in Hw as ->. simpl.
    rewrite <- (app_nil_r (chars post)), lstrip_chars_blank_app by done.
    done.
  - assert (lstrip_chars ((c :: l) ++ chars post) = (c :: l) ++ chars post)
      as ->.
    { simpl. by rewrite (Hhead c). }
    rewrite reverse_app, lstrip_chars_blank_app.
    + by rewrite reverse_involutive, <- Hw, join_chars.
    + by apply Forall_reverse.
    + intros d. rewrite head_reverse. apply Hlast.
Qed.

Lemma add_line_spec st line w :
  w ∈ add_line st line <-> w ∈ st \/ (w <> "" /\ w = strip line).
Proof.
  unfold add_line. destruct (strip line) as [|c s] eqn:Hs; simpl.
  - split; [by left|]. by intros [?|[? ->]].
  - rewrite elem_of_union, elem_of_singleton. split.
    + intros [->|?]; [by right | by left].
    + intros [?|[_ ->]]; [by right | by left].
Qed.

Lemma foldl_add_line_spec lines st w :
  w ∈ foldl add_line st lines
  <-> w ∈ st \/ (w <> "" /\ exists line, line ∈ lines /\ w = strip line).
Proof.
  revert st; induction lines as [|line lines IH]; intros st; simpl.
  - split; [by left|]. intros [?|[_ (line & ?%elem_of_nil & _)]]; done.
  - rewrite IH, add_line_spec. setoid_rewrite elem_of_cons. naive_solver.
Qed.

(** X19: a file that cannot be opened leaves the store as it was.
    Otherwise the store gains exactly the stripped forms of the lines
    that are not empty; blank lines add nothing, every word added neither
    begins nor ends with whitespace, and a line made of such a word and
    the newline adds the word.  The reported number is the number of words
    that the store did not hold before. *)
Theorem add_from_file_exact (lines : list string) (st : store) :
  add_from_file None st = (st, None)
  /\ (forall w, w ∈ (add_from_file (Some lines) st).1
                <-> w ∈ st
                    \/ (w <> "" /\ exists line, line ∈ lines /\ w = strip line))
  /\ (forall w, w ∈ (add_from_file (Some lines) st).1 -> w ∉ st ->
                w <> "" /\ stripped w)
  /\ (forall w, w <> "" -> stripped w -> w +:+ newline ∈ lines ->
                w ∈ (add_from_file (Some lines) st).1)
  /\ (forall line, blank line -> strip line = "")
  /\ (add_from_file (Some lines) st).2
     = Some (Z.of_nat (size ((add_from_file (Some lines) st).1 ∖ st))).
Proof.
  assert (forall w, w ∈ (add_from_file (Some lines) st).1
                    <-> w ∈ st
                        \/ (w <> "" /\ exists line, line ∈ lines /\ w = strip line))
    as Hspec by (intros w; apply foldl_add_line_spec).
  split_and!; [done | exact Hspec | | | |].
  - intros w [?|[Hne (line & _ & ->)]]%Hspec Hnot; [done|].
    split; [done|]. by destruct (strip_spec line) as (_ & _ & _ & _ & _ & ?).
  - intros w Hne Hw Hin. apply Hspec. right. split; [done|].
    exists (w +:+ newline). split; [done|].
    symmetry. apply strip_stripped; [done|]. by repeat constructor.
  - intros line Hblank. unfold strip.
    rewrite <- (app_nil_r (chars line)), lstrip_chars_blank_app by done.
    done.
  - simpl. f_equal.
    assert (st ⊆ foldl add_line st lines) as Hsub.
    { intros w Hw. apply foldl_add_line_spec. by left. }
    rewrite size_difference by done. apply subseteq_size in Hsub. lia.
Qed.

(** Three lines, one of them blank. *)
Example add_from_file_three_lines :
  elements (add_from_file
              (Some ["  alpha " +:+ newline; " " +:+ newline;
                     "beta" +:+ newline]) ∅).1
  = ["alpha"; "beta"].
Proof. by vm_compute. Qed.

(** ** [main]: the two pipelines *)

Lemma charset_outcome charset min_len max_len count st :
  (generate_from_charset charset min_len max_len count st).2 = ValueError
  <-> min_len < 0 /\ min_len <= max_len.
Proof.
  unfold generate_from_charset.
  destruct (decide (min_len < 0 /\ min_len <= max_len)) as [[Hneg Hle]|Hok].
  - rewrite range_cons by lia. simpl.
    unfold Itertools.product_repeat. replace (min_len <? 0) with true by lia.
    simpl. split; [lia | done].
  - assert ((charset_loop count (chars charset)
               (Itertools.range min_len (max_len + 1)) (gen_start st)).2
            = Returned) as ->.
    { destruct (decide (0 <= min_len)) as [Hmin|Hmin].
      - by apply charset_loop_returned, range_nonneg.
      - by rewrite range_empty by lia. }
    split; [done | tauto].
Qed.

Lemma add_personal_info_no_word name phone dob father_name mother_name place st :
  truthy name = false -> truthy father_name = false ->
  truthy mother_name = false -> truthy place = false ->
  (add_personal_info_combinations
     name phone dob father_name mother_name place st).1 = st.
Proof.
  intros Hn Hf Hm Hp.
  assert (forall field f, truthy field = false -> when_given field f = [])
    as Hnone.
  { intros [s|] f H; simpl in *; [by rewrite H | done]. }
  unfold add_personal_info_combinations, base_words_of.
  by rewrite !Hnone by done.
Qed.

Lemma apply_leetspeak_empty : (apply_leetspeak ∅).1 = ∅.
Proof.
  unfold apply_leetspeak, leet_new_words; simpl.
  rewrite elements_empty. simpl. set_solver.
Qed.

Lemma apply_prefix_suffix_empty prefix suffix :
  (apply_prefix_suffix prefix suffix ∅).1 = ∅.
Proof.
  unfold apply_prefix_suffix. destruct (_ && _); simpl; [done|].
  rewrite set_map_empty. set_solver.
Qed.

Lemma finish_not_raised st : finish st <> Raised.
Proof. unfold finish. by destruct (bool_decide _). Qed.

Lemma finish_saved st st' written :
  finish st = Saved st' written ->
  st' = st /\ st <> ∅ /\ written = save_to_file st.
Proof.
  unfold finish. destruct (bool_decide (st <> ∅)) eqn:Hne; [|done].
  intros [= <- <-]. by apply bool_decide_eq_true_1 in Hne.
Qed.

Section pipelines.

Context (listing : store -> list string).
Hypothesis listing_perm : forall st, listing st ≡ₚ elements st.

Lemma limit_wordcount_empty max_words : limit_wordcount listing max_words ∅ = ∅.
Proof.
  apply set_eq. intros w. split; [|by intros ?%elem_of_empty].
  apply (limit_wordcount_subset listing listing_perm).
Qed.

Lemma post_process_empty min_len max_len max_words :
  post_process listing min_len max_len max_words ∅ = ∅.
Proof.
  unfold post_process, when.
  rewrite bool_decide_eq_false_2 by (by intros H; apply H).
  destruct (truthy_count max_words); [apply limit_wordcount_empty | done].
Qed.

Lemma post_process_spec min_len max_len max_words st :
  let st' := post_process listing min_len max_len max_words st in
  st' ⊆ st
  /\ (forall w, w ∈ st' -> min_len <= len w <= max_len)
  /\ (forall n, max_words = Some n -> 0 < n -> Z.of_nat (size st') <= n).
Proof.
  unfold post_process, when.
  set (st1 := if bool_decide (st <> ∅)
              then (filter_by_length min_len max_len st).1 else st).
  assert (st1 ⊆ st) as Hsub1.
  { subst st1. destruct (bool_decide _); [apply filter_by_length_subset | done]. }
  assert (forall w, w ∈ st1 -> min_len <= len w <= max_len) as Hlen1.
  { subst st1. intros w. destruct (bool_decide (st <> ∅)) eqn:Hne.
    - by intros [_ ?]%elem_of_filter_by_length.
    - apply bool_decide_eq_false_1 in Hne.
      assert (st = ∅) as -> by (by destruct (decide (st = ∅))).
      by intros ?%elem_of_empty. }
  pose proof (limit_wordcount_subset listing listing_perm
                (default 0 max_words) st1) as Hsub2.
  simpl. destruct (truthy_count max_words) eqn:Hcount.
  - split_and!; [set_solver | set_solver |].
    intros n -> Hn. simpl.
    destruct (decide (Z.of_nat (size st1) > n)) as [Hgt|Hle].
    + rewrite (limit_wordcount_cut listing listing_perm) by done.
      by replace (0 <=? n) with true by lia.
    + unfold limit_wordcount.
      replace (Z.of_nat (size st1) >? n) with false by lia. lia.
  - split_and!; [done | done |].
    intros n -> Hn. simpl in Hcount. lia.
Qed.

(** X20: a run of the command-line mode that saves a word list saves a
    store that is not empty, in which every word has a length between
    [--min-len] and [--max-len], and which holds at most [--max-words]
    words when that number is positive; the lines written are the sorted
    words. *)
Theorem main_cli_saved
    (fs : string -> option (list string)) (args : cli_args)
    (st : store) (written : list string) :
  main_cli listing fs args = Saved st written ->
  st <> ∅
  /\ written = save_to_file st
  /\ (forall w, w ∈ st -> arg_min_len args <= len w <= arg_max_len args)
  /\ (forall n, arg_max_words args = Some n -> 0 < n ->
                Z.of_nat (size st) <= n).
Proof.
  unfold main_cli. destruct (cli_generate fs args).2; [|done].
  intros (-> & Hne & ->)%finish_saved.
  destruct (post_process_spec (arg_min_len args) (arg_max_len args)
              (arg_max_words args) (cli_generate fs args).1)
    as (_ & Hlen & Hsize).
  done.
Qed.

(** X21: the same holds for the interactive mode: a saved store is not
    empty, its words have lengths between the two bounds entered, and it
    holds at most the maximum number of words entered. *)
Theorem main_interactive_saved
    (inputs : user_inputs) (st : store) (written : list string) :
  main_interactive listing inputs = Saved st written ->
  st <> ∅
  /\ written = save_to_file st
  /\ (forall w, w ∈ st -> in_min_len inputs <= len w <= in_max_len inputs)
  /\ (forall n, in_max_words inputs = Some n -> 0 < n ->
                Z.of_nat (size st) <= n).
Proof.
  unfold main_interactive.
  intros (-> & Hne & ->)%finish_saved.
  match goal with
  | |- context [post_process listing ?a ?b ?m ?s] =>
      destruct (post_process_spec a b m s) as (_ & Hlen & Hsize)
  end.
  done.
Qed.

Lemma main_cli_raised_iff
    (fs : string -> option (list string)) (args : cli_args) :
  main_cli listing fs args = Raised
  <-> truthy (arg_charset args) = true
      /\ arg_min_len args < 0 /\ arg_min_len args <= arg_max_len args.
Proof.
  unfold main_cli.
  assert ((cli_generate fs args).2 = ValueError
          <-> truthy (arg_charset args) = true
              /\ arg_min_len args < 0 /\ arg_min_len args <= arg_max_len args)
    as Hgen.
  { unfold cli_generate. destruct (truthy (arg_charset args)); simpl.
    - match goal with
      | |- context [generate_from_charset ?c ?a ?b ?n ?s] =>
          pose proof (charset_outcome c a b n s) as Hout;
          destruct (generate_from_charset c a b n s).2
      end; simpl; [|tauto].
      split; [done|]. intros [_ H]. by apply Hout in H.
    - split; [done | by intros [? _]]. }
  destruct (cli_generate fs args).2.
  - split; [by intros ?%finish_not_raised | by intros ?%Hgen].
  - split; [by intros _; apply Hgen | done].
Qed.

(** X22: the command-line mode raises exactly when a character set is
    given with a negative [--min-len] that does not exceed [--max-len];
    nothing is saved then. *)
Theorem main_cli_raises
    (fs : string -> option (list string)) (args : cli_args) :
  main_cli listing fs args = Raised
  <-> truthy (arg_charset args) = true
      /\ arg_min_len args < 0 /\ arg_min_len args <= arg_max_len args.
Proof. apply main_cli_raised_iff. Qed.

(** X23: without a name, father name, mother name, place, pattern,
    character set and file nothing is generated and the run ends with
    [sys.exit(1)], whatever the phone number, date of birth, leetspeak
    flag, prefix, suffix and limits are. *)
Theorem main_cli_nothing_to_generate
    (fs : string -> option (list string)) (args : cli_args) :
  truthy (arg_name args) = false -> truthy (arg_father_name args) = false ->
  truthy (arg_mother_name args) = false -> truthy (arg_place args) = false ->
  truthy (arg_pattern args) = false -> truthy (arg_charset args) = false ->
  truthy (arg_file args) = false ->
  main_cli listing fs args = NoWords.
Proof.
  intros Hn Hf Hm Hp Hpat Hcs Hfile.
  assert (cli_generate fs args = (∅, Returned)) as Hgen.
  { unfold cli_generate, when. rewrite Hpat, Hcs, Hfile. simpl.
    assert (forall b : bool, (if b then (add_personal_info_combinations
                         (arg_name args) (arg_phone args) (arg_dob args)
                         (arg_father_name args) (arg_mother_name args)
                         (arg_place args) ∅).1 else ∅) = (∅ : store)) as ->.
    { intros []; [by apply add_personal_info_no_word | done]. }
    assert (forall b : bool,
              (if b then (apply_leetspeak ∅).1 else ∅) = (∅ : store))
      as ->.
    { intros []; [apply apply_leetspeak_empty | done]. }
    match goal with |- context [if ?b then _ else _] => destruct b end;
      [by rewrite apply_prefix_suffix_empty | done]. }
  unfold main_cli. rewrite Hgen. simpl.
  rewrite post_process_empty. unfold finish.
  by rewrite bool_decide_eq_false_2 by (by intros H; apply H).
Qed.

(** X24: with [--min-len] larger than [--max-len] the command-line mode
    never saves a word list: no word passes the length filter. *)
Theorem main_cli_bounds_reversed
    (fs : string -> option (list string)) (args : cli_args) :
  arg_max_len args < arg_min_len args ->
  forall st written, main_cli listing fs args <> Saved st written.
Proof.
  intros Hlt st written Hrun.
  unfold main_cli in Hrun. destruct (cli_generate fs args).2; [|done].
  apply finish_saved in Hrun as (-> & Hne & _).
  destruct (post_process_spec (arg_min_len args) (arg_max_len args)
              (arg_max_words args) (cli_generate fs args).1)
    as (_ & Hlen & _). simpl in Hlen.
  apply Hne, set_eq. intros w. split; [|by intros ?%elem_of_empty].
  intros Hw. specialize (Hlen w Hw). lia.
Qed.

End pipelines.

(** A run with the pattern ["?d"], the suffix ["x"], lengths from 1 to 1
    and at most 3 words: the digits 0, 1 and 2 are saved. *)
Lemma main_cli_saved_witness :
  let args := CliArgs (Some "?d") None None None None None None None
                      1 1 (Some 3) None (Some "x") false None in
  exists st written,
    main_cli elements (fun _ => None) args = Saved st written
    /\ st <> ∅
    /\ written = save_to_file st
    /\ (forall w, w ∈ st -> 1 <= len w <= 1)
    /\ (forall n, Some 3 = Some n -> 0 < n -> Z.of_nat (size st) <= n).
Proof.
  intros args.
  destruct (main_cli elements (fun _ => None) args) as [st written| |] eqn:Hrun;
    [|by vm_compute in Hrun..].
  exists st, written. split; [done|].
  exact (main_cli_saved elements (fun st => reflexivity (elements st))
           (fun _ => None) args st written Hrun).
Defined.

(** An interactive run with the name ["Al"], the special character ["!"]
    and lengths from 3 to 3. *)
Lemma main_interactive_saved_witness :
  let inputs := UserInputs (Some "Al") None None None None None true (Some "!")
                           None false 3 3 None in
  exists st written,
    main_interactive elements inputs = Saved st written
    /\ st <> ∅
    /\ written = save_to_file st
    /\ (forall w, w ∈ st -> 3 <= len w <= 3)
    /\ (forall n, None = Some n -> 0 < n -> Z.of_nat (size st) <= n).
Proof.
  intros inputs.
  destruct (main_interactive elements inputs) as [st written| |] eqn:Hrun;
    [|by vm_compute in Hrun..].
  exists st, written. split; [done|].
  exact (main_interactive_saved elements (fun st => reflexivity (elements st))
           inputs st written Hrun).
Defined.

(** A run with a phone number, the leetspeak flag and a prefix only. *)
Lemma main_cli_nothing_to_generate_witness :
  main_cli elements (fun _ => None)
    (CliArgs None None None (Some "9123456789") None None (Some "") None
             4 12 (Some 10) (Some "x") None true None)
  = NoWords.
Proof.
  exact (main_cli_nothing_to_generate elements
           (fun st => reflexivity (elements st)) (fun _ => None)
           (CliArgs None None None (Some "9123456789") None None (Some "") None
                    4 12 (Some 10) (Some "x") None true None)
           eq_refl eq_refl eq_refl eq_refl eq_refl eq_refl eq_refl).
Defined.

(** A run with the pattern ["?d"] and lengths from 3 to 1. *)
Lemma main_cli_bounds_reversed_witness :
  1 < 3
  /\ forall st written,
       main_cli elements (fun _ => None)
         (CliArgs (Some "?d") None None None None None None None
                  3 1 None None None false None)
       <> Saved st written.
Proof.
  assert (1 < 3) as H by lia. split; [exact H|].
  exact (main_cli_bounds_reversed elements
           (fun st => reflexivity (elements st)) (fun _ => None)
           (CliArgs (Some "?d") None None None None None None None
                    3 1 None None None false None) H).
Defined.

(** ** The date variants of a long enough date *)

Lemma chars_remove_char c s : c ∉ chars (remove_char c s).
Proof.
  induction s as [|d s IH]; simpl; [by intros ?%elem_of_nil|].
  destruct (Ascii.eqb d c) eqn:Hd; [done|].
  simpl. intros [->|?]%elem_of_cons; [|done].
  by rewrite Ascii.eqb_refl in Hd.
Qed.

Lemma chars_remove_char_subset c s x :
  x ∈ chars (remove_char c s) -> x ∈ chars s.
Proof.
  induction s as [|d s IH]; simpl; [done|].
  destruct (Ascii.eqb d c); simpl; rewrite ?elem_of_cons; naive_solver.
Qed.

Lemma length_slice a b s :
  (b <= String.length s)%nat -> String.length (slice a b s) = (b - a)%nat.
Proof.
  intros Hb. unfold slice.
  rewrite length_join, length_take, length_drop, length_chars. lia.
Qed.

(** X25: a date of birth whose form without [/] and [-] has at least 8
    characters gives seven variants, cut from fixed positions whatever the
    characters are: the whole cleaned string, its first 8 characters,
    characters 0-3 with 6-7, characters 4-7, 6-7, 0-3 and 2-7, of the
    lengths 8, 6, 4, 2, 4 and 6.  No variant holds a separator, and when
    the cleaned string has exactly 8 characters the first two variants are
    the same string. *)
Theorem dob_variants_long (dob : string) :
  8 <= len (dob_clean_of dob) ->
  let clean := dob_clean_of dob in
  dob_variants_of (Some dob)
    = [clean; slice 0 8 clean; slice 0 4 clean +:+ slice 6 8 clean;
       slice 4 8 clean; slice 6 8 clean; slice 0 4 clean; slice 2 8 clean]
  /\ String.length <$> dob_variants_of (Some dob)
     = [String.length clean; 8; 6; 4; 2; 4; 6]%nat
  /\ (("/"%char ∉ chars clean) /\ ("-"%char ∉ chars clean))
  /\ (len clean = 8 -> slice 0 8 clean = clean).
Proof.
  intros Hlen clean. fold clean in Hlen. unfold len in Hlen.
  assert (nonempty dob = true) as Hne.
  { destruct dob; [|done]. by vm_compute in Hlen. }
  assert (dob_variants_of (Some dob)
          = [clean; slice 0 8 clean; slice 0 4 clean +:+ slice 6 8 clean;
             slice 4 8 clean; slice 6 8 clean; slice 0 4 clean;
             slice 2 8 clean]) as Hv.
  { unfold dob_variants_of, when_given. rewrite Hne.
    fold (dob_clean_of dob). fold clean.
    replace (8 <=? len clean) with true by (unfold len; lia).
    assert (slice_from 2 (slice 4 8 clean) = slice 6 8 clean) as ->.
    { unfold slice_from, slice. rewrite chars_join. f_equal.
      change (8 - 4)%nat with (2 + 2)%nat.
      by rewrite <- take_drop_commute, drop_drop. }
    assert (slice 0 2 clean +:+ slice 2 4 clean = slice 0 4 clean) as Hdm.
    { unfold slice. rewrite <- join_app. f_equal.
      change (drop 0 (chars clean)) with (chars clean).
      apply (take_take_drop _ 2 2). }
    assert (slice 2 4 clean +:+ slice 4 8 clean = slice 2 8 clean) as Hmy.
    { unfold slice. rewrite <- join_app. f_equal.
      change (drop 4 (chars clean)) with (drop (2 + 2) (chars clean)).
      rewrite <- drop_drop. apply (take_take_drop _ 2 4). }
    assert (slice 0 4 clean +:+ slice 4 8 clean = slice 0 8 clean) as Hdmy.
    { unfold slice. rewrite <- join_app. f_equal.
      change (drop 0 (chars clean)) with (chars clean).
      apply (take_take_drop _ 4 4). }
    by rewrite <- !append_assoc, !Hdm, Hmy, Hdmy. }
  split; [exact Hv | split; [|split]].
  - rewrite Hv. simpl fmap.
    rewrite length_append, !length_slice by lia. done.
  - split.
    + intros H. apply chars_remove_char_subset in H.
      by apply chars_remove_char in H.
    + apply chars_remove_char.
  - intros H8. unfold slice, len in *.
    change (drop 0 (chars clean)) with (chars clean).
    rewrite take_ge by (rewrite length_chars; lia). apply join_chars.
Qed.

(** The date ["15-08-1990x"], with a character after the year. *)
Lemma dob_variants_long_witness :
  8 <= len (dob_clean_of "15-08-1990x")
  /\ dob_variants_of (Some "15-08-1990x")
     = ["15081990x"; "15081990"; "150890"; "1990"; "90"; "1508"; "081990"].
Proof.
  assert (8 <= len (dob_clean_of "15-08-1990x")) as H
    by (vm_compute; discriminate).
  split; [exact H|].
  exact (proj1 (dob_variants_long "15-08-1990x" H)).
Defined.

(** ** [apply_leetspeak] on text outside ASCII *)

Lemma set_item_Some word i c r :
  word !! i = Some c -> set_item word i r = Some (<[i:=r]> word).
Proof.
  intros Hi. unfold set_item. apply lookup_lt_Some in Hi.
  by destruct (decide (i < length word)%nat).
Qed.

Lemma replacements_u_key c r :
  r ∈ replacements_u c -> is_Some (leetspeak_map_u c).
Proof.
  unfold replacements_u. destruct (leetspeak_map_u c); [eauto|].
  by intros ?%elem_of_nil.
Qed.


Lemma mapM_id_elem {A} (l : list (option A)) (k : list A) (x : A) :
  mapM id l = Some k -> x ∈ k <-> Some x ∈ l.
Proof.
  intros H%mapM_Some_1. split.
  - intros [i Hi]%list_elem_of_lookup.
    destruct (Forall2_lookup_r _ _ _ _ _ H Hi) as (o & Ho & Heq).
    unfold id in Heq. subst o. by eapply list_elem_of_lookup_2.
  - intros [i Hi]%list_elem_of_lookup.
    destruct (Forall2_lookup_l _ _ _ _ _ H Hi) as (y & Hy & Heq).
    unfold id in Heq. injection Heq as ->. by eapply list_elem_of_lookup_2.
Qed.

Section any_text_facts.

Context (py_lower : ustr -> ustr).

Lemma leet_attempts_elem word o :
  o ∈ leet_attempts_u py_lower word ->
  (1 <= length (leet_positions_u py_lower word) <= 4)%nat
  /\ exists p r, p ∈ leet_positions_u py_lower word
                 /\ r ∈ replacements_u p.2
                 /\ o = set_item word p.1 r.
Proof.
  unfold leet_attempts_u.
  destruct (bool_decide _) eqn:Hne; simpl; [|by intros ?%elem_of_nil].
  destruct (_ <=? 4)%nat eqn:Hle; [|by intros ?%elem_of_nil].
  intros (r & (combo & (p & (x & Ho & Hx)%list_elem_of_bind
    & Hp)%list_elem_of_bind & Hcombo)%list_elem_of_bind & _)%list_elem_of_bind.
  apply list_elem_of_singleton in Ho as ->.
  pose proof (combinations_elem _ _ _ _ Hcombo Hp) as Hpos.
  split; [|by exists p, x].
  apply Nat.leb_le in Hle. apply bool_decide_eq_true_1 in Hne.
  destruct (leet_positions_u py_lower word); [done | simpl in *; lia].
Qed.

Lemma leet_attempts_complete word p r :
  (1 <= length (leet_positions_u py_lower word) <= 4)%nat ->
  p ∈ leet_positions_u py_lower word ->
  r ∈ replacements_u p.2 ->
  set_item word p.1 r ∈ leet_attempts_u py_lower word.
Proof.
  intros Hk Hp Hr. unfold leet_attempts_u.
  rewrite bool_decide_eq_true_2
    by (intros Hnil; by rewrite Hnil in Hp; apply elem_of_nil in Hp).
  replace (length (leet_positions_u py_lower word) <=? 4)%nat with true
    by (symmetry; apply Nat.leb_le; lia).
  simpl. apply list_elem_of_bind. exists 1%nat. split; [|apply elem_of_seq; lia].
  apply list_elem_of_bind. exists [p]. split; [|by apply combinations_single].
  apply list_elem_of_bind. exists p. split; [|by left].
  apply list_elem_of_bind. exists r. split; [by left | done].
Qed.

(** Where [str.lower] lower-cases a word as ASCII text, a recorded
    position holds a character of the word whose lower-case form is a
    key. *)
Lemma leet_positions_u_spec word p :
  py_lower word = lower_cp <$> word ->
  p ∈ leet_positions_u py_lower word
  <-> exists c, word !! p.1 = Some c /\ p.2 = lower_cp c
                /\ is_Some (leetspeak_map_u (lower_cp c)).
Proof.
  intros Hlow. unfold leet_positions_u. rewrite Hlow.
  rewrite list_elem_of_filter, elem_of_lookup_imap. split.
  - intros [Hkey (i & k & -> & Hi)]. simpl in *.
    rewrite list_lookup_fmap in Hi.
    destruct (word !! i) as [c|] eqn:Hc; simpl in Hi; [|done].
    injection Hi as <-. eauto.
  - intros (c & Hc & Hp2 & Hkey). split; [by rewrite Hp2|].
    exists p.1, p.2. split; [by destruct p|].
    by rewrite list_lookup_fmap, Hc, Hp2.
Qed.

Lemma length_leet_positions_u word :
  py_lower word = lower_cp <$> word ->
  length (leet_positions_u py_lower word) = leet_count_u word.
Proof.
  intros Hlow. unfold leet_positions_u, leet_count_u. rewrite Hlow.
  etrans;
    [exact (length_filter_imap (fun c => is_Some (leetspeak_map_u c)) id
              (lower_cp <$> word))|].
  clear Hlow. induction word as [|c l IH]; [done|].
  rewrite fmap_cons, !filter_cons. simpl.
  destruct (decide (is_Some (leetspeak_map_u (lower_cp c)))); simpl;
    by rewrite IH.
Qed.

(** There no assignment raises, and the strings built are the single
    replacements. *)
Lemma leet_variants_u_spec word :
  py_lower word = lower_cp <$> word ->
  exists vs,
    leet_variants_u py_lower word = Some vs
    /\ forall w, w ∈ vs
         <-> (1 <= leet_count_u word <= 4)%nat
             /\ exists i c r, word !! i = Some c
                              /\ r ∈ replacements_u (lower_cp c)
                              /\ w = <[i:=r]> word.
Proof.
  intros Hlow.
  assert (is_Some (leet_variants_u py_lower word)) as [vs Hvs].
  { apply mapM_is_Some_2, Forall_forall. intros o Ho. simpl.
    apply leet_attempts_elem in Ho as (_ & p & r & Hp & _ & ->).
    apply (leet_positions_u_spec _ _ Hlow) in Hp as (c & Hc & _).
    rewrite (set_item_Some _ _ c) by done. eauto. }
  exists vs. split; [done|]. intros w.
  rewrite (mapM_id_elem _ _ _ Hvs), <- (length_leet_positions_u _ Hlow).
  split.
  - intros (Hk & p & r & Hp & Hr & Hw)%leet_attempts_elem.
    split; [done|].
    apply (leet_positions_u_spec _ _ Hlow) in Hp as (c & Hc & Hp2 & _).
    rewrite (set_item_Some _ _ c) in Hw by done. injection Hw as ->.
    exists p.1, c, r. by rewrite <- Hp2.
  - intros (Hk & i & c & r & Hc & Hr & ->).
    rewrite <- (set_item_Some _ _ c) by done.
    apply (leet_attempts_complete word (i, lower_cp c) r); [done| |done].
    apply (leet_positions_u_spec _ _ Hlow). exists c.
    split_and!; [done | done | by eapply replacements_u_key].
Qed.

(** When no word raises, [new_words] holds what the words give. *)
Lemma leet_new_words_u_spec (st : gset ustr) :
  (forall word, word ∈ st -> is_Some (leet_variants_u py_lower word)) ->
  exists new_words,
    leet_new_words_u py_lower st = Some new_words
    /\ forall w, w ∈ new_words
         <-> exists word vs, word ∈ st
               /\ leet_variants_u py_lower word = Some vs /\ w ∈ vs.
Proof.
  intros Hall.
  assert (is_Some (mapM (leet_variants_u py_lower) (elements st)))
    as [new Hnew].
  { apply mapM_is_Some_2, Forall_forall. intros word Hword%elem_of_elements.
    by apply Hall. }
  exists (list_to_set (mjoin new)). unfold leet_new_words_u.
  rewrite Hnew. split; [done|]. intros w.
  rewrite elem_of_list_to_set, list_elem_of_join.
  apply mapM_Some_1 in Hnew. split.
  - intros (vs & Hw & [i Hi]%list_elem_of_lookup).
    destruct (Forall2_lookup_r _ _ _ _ _ Hnew Hi) as (word & Hword & Hvs).
    exists word, vs. split_and!; [|done..].
    apply elem_of_elements. by eapply list_elem_of_lookup_2.
  - intros (word & vs & [i Hi]%elem_of_elements%list_elem_of_lookup & Hvs & Hw).
    destruct (Forall2_lookup_l _ _ _ _ _ Hnew Hi) as (vs' & Hvs' & Heq).
    exists vs. split; [done|].
    rewrite Hvs in Heq. injection Heq as <-. by eapply list_elem_of_lookup_2.
Qed.

End any_text_facts.


(** On ["İs"] the position of the [s] in the lower-case form lies past
    the end of the word: the assignment raises and the call with it. *)
Example apply_leetspeak_dotted_I_raises :
  lower_dotted_I [304; 115]%N = [105; 775; 115]%N
  /\ leet_variants_u lower_dotted_I [304; 115]%N = None
  /\ apply_leetspeak_u lower_dotted_I {[ [304; 115]%N ]} = None.
Proof.
  split; [done|]. split; [done|].
  unfold apply_leetspeak_u, leet_new_words_u. by rewrite elements_singleton.
Qed.



(** X11: the variants of a word that [str.lower] lower-cases as ASCII
    text, character by character.  No assignment raises; a word with
    between one and four replaceable characters gives every string
    obtained by replacing one of them by one of its replacements, and
    nothing else; a word with no or with more than four replaceable
    characters gives nothing. *)
Theorem leet_variants_u_exact (py_lower : ustr -> ustr) (word : ustr) :
  py_lower word = lower_cp <$> word ->
  exists vs,
    leet_variants_u py_lower word = Some vs
    /\ forall w, w ∈ vs
         <-> (1 <= leet_count_u word <= 4)%nat
             /\ exists i c r, word !! i = Some c
                              /\ r ∈ replacements_u (lower_cp c)
                              /\ w = <[i:=r]> word.
Proof. apply leet_variants_u_spec. Qed.

(** The word ["Test"], with the ASCII lower-casing for [str.lower]. *)
Lemma leet_variants_u_exact_witness :
  exists vs,
    leet_variants_u (fmap lower_cp) (code_points "Test") = Some vs
    /\ forall w, w ∈ vs
         <-> (1 <= leet_count_u (code_points "Test") <= 4)%nat
             /\ exists i c r, code_points "Test" !! i = Some c
                              /\ r ∈ replacements_u (lower_cp c)
                              /\ w = <[i:=r]> (code_points "Test").
Proof.
  exact (leet_variants_u_exact (fmap lower_cp) (code_points "Test") eq_refl).
Defined.

(** ** The ASCII definitions and the definitions on code points agree *)

Lemma lower_cp_ascii a : lower_cp (N_of_ascii a) = N_of_ascii (lower_char a).
Proof. by destruct a as [[] [] [] [] [] [] [] []]. Qed.

Lemma leetspeak_map_u_ascii a :
  leetspeak_map_u (N_of_ascii a) = (fun l : list ascii => N_of_ascii <$> l) <$> leetspeak_map a.
Proof. by destruct a as [[] [] [] [] [] [] [] []]. Qed.

Lemma replacements_u_ascii a :
  replacements_u (N_of_ascii a) = N_of_ascii <$> replacements a.
Proof.
  unfold replacements_u, replacements. rewrite leetspeak_map_u_ascii.
  by destruct (leetspeak_map a).
Qed.

Global Instance N_of_ascii_inj : Inj (=) (=) N_of_ascii.
Proof.
  intros a b H. by rewrite <- (ascii_N_embedding a), <- (ascii_N_embedding b), H.
Qed.

Global Instance code_points_inj : Inj (=) (=) code_points.
Proof.
  intros s t H. unfold code_points in H. apply (inj (fmap N_of_ascii)) in H.
  by rewrite <- (join_chars s), <- (join_chars t), H.
Qed.

Lemma code_points_join l : code_points (join l) = N_of_ascii <$> l.
Proof. unfold code_points. by rewrite chars_join. Qed.

Lemma leet_count_u_ascii s : leet_count_u (code_points s) = leet_count s.
Proof.
  unfold leet_count_u, leet_count, code_points.
  induction (chars s) as [|a l IH]; [done|].
  rewrite fmap_cons, !filter_cons, lower_cp_ascii, leetspeak_map_u_ascii.
  destruct (decide (is_Some (leetspeak_map (lower_char a)))) as [Hk|Hk];
    destruct (decide (is_Some ((fun l : list ascii => N_of_ascii <$> l)
                                <$> leetspeak_map (lower_char a))))
      as [Hk'|Hk']; simpl; rewrite ?IH; try done; exfalso.
  - apply Hk'. destruct Hk as [x ->]. by eexists.
  - apply Hk. destruct (leetspeak_map (lower_char a)); [by eexists|].
    by destruct Hk'.
Qed.

(** On a word of ASCII text that [str.lower] lower-cases as such, the
    strings built on code points are those built by [leet_variants]. *)
Lemma leet_variants_agree (py_lower : ustr -> ustr) (s : string) :
  py_lower (code_points s) = lower_cp <$> code_points s ->
  exists vs,
    leet_variants_u py_lower (code_points s) = Some vs
    /\ forall w, w ∈ vs <-> exists v, v ∈ leet_variants s /\ w = code_points v.
Proof.
  intros Hlow.
  destruct (leet_variants_u_spec py_lower _ Hlow) as (vs & Hvs & Hspec).
  exists vs. split; [done|]. intros w.
  rewrite Hspec, leet_count_u_ascii. setoid_rewrite leet_variants_exact.
  split.
  - intros (Hk & i & c & r & Hc & Hr & ->).
    unfold code_points in Hc. rewrite list_lookup_fmap in Hc.
    destruct (chars s !! i) as [a|] eqn:Ha; simpl in Hc; [|done].
    injection Hc as <-.
    rewrite lower_cp_ascii, replacements_u_ascii in Hr.
    apply list_elem_of_fmap in Hr as (ra & -> & Hra).
    exists (join (<[i:=ra]> (chars s))). split.
    + split; [done|]. by exists i, a, ra.
    + by rewrite code_points_join, list_fmap_insert.
  - intros (v & (Hk & i & a & ra & Ha & Hra & ->) & ->).
    split; [done|]. exists i, (N_of_ascii a), (N_of_ascii ra). split_and!.
    + unfold code_points. by rewrite list_lookup_fmap, Ha.
    + rewrite lower_cp_ascii, replacements_u_ascii.
      by apply list_elem_of_fmap_2.
    + by rewrite code_points_join, list_fmap_insert.
Qed.

Lemma size_code_points (st : store) :
  size (set_map code_points st : gset ustr) = size st.
Proof.
  unfold set_map. rewrite size_list_to_set; [by rewrite length_fmap|].
  apply (NoDup_fmap_2 _), NoDup_elements.
Qed.

(** On a store of ASCII words that [str.lower] lower-cases as such,
    [apply_leetspeak] on code points does not raise and gives the store
    and the report of [apply_leetspeak]. *)
Theorem apply_leetspeak_agrees (py_lower : ustr -> ustr) (st : store) :
  (forall s, s ∈ st -> py_lower (code_points s) = lower_cp <$> code_points s) ->
  apply_leetspeak_u py_lower (set_map code_points st)
  = Some (set_map code_points (apply_leetspeak st).1, (apply_leetspeak st).2).
Proof.
  intros Hlow.
  destruct (leet_new_words_u_spec py_lower (set_map code_points st))
    as (new_words & Hnew & Hspec).
  { intros word (s & -> & Hs)%elem_of_map.
    destruct (leet_variants_agree py_lower s (Hlow s Hs)) as (vs & -> & _).
    eauto. }
  assert (new_words = set_map code_points (leet_new_words st)) as ->.
  { apply set_eq. intros w. rewrite Hspec, elem_of_map.
    setoid_rewrite leet_new_words_spec. split.
    - intros (word & vs & (s & -> & Hs)%elem_of_map & Hvs & Hw).
      destruct (leet_variants_agree py_lower s (Hlow s Hs))
        as (vs' & Hvs' & Hagree).
      rewrite Hvs in Hvs'. injection Hvs' as <-.
      apply Hagree in Hw as (v & Hv & ->). eauto.
    - intros (v & -> & s & Hs & Hv).
      destruct (leet_variants_agree py_lower s (Hlow s Hs))
        as (vs & Hvs & Hagree).
      exists (code_points s), vs. split_and!; [|done|].
      + apply elem_of_map. eauto.
      + apply Hagree. eauto. }
  unfold apply_leetspeak_u. rewrite Hnew. simpl.
  by rewrite size_code_points, set_map_union_L.
Qed.
